(** * Semantic-LiDAR logging and fleet provisioning

    A shallow embedding of [ObjDetection/LIDARSpawnAndObjDetectionSave.py]:
    the sensor callback [semantic_lidar_data], the fleet provisioner
    [spawn_vehicles_batch] and the start-up / teardown protocol of [main].

    Conventions.
    - A Python [float] is an IEEE 754 binary64 value, taken from the
      Standard Library's executable specification ([spec_float], with
      [prec = 53] and [emax = 1024]).
    - A CSV file is the list of rows written to it, a row the list of its
      cells; [csv.writer]'s quoting is not modelled.
    - The wall clock, the random generator and the simulator are explicit
      inputs: what they answer is a parameter, what the program does with
      the answers is code.
    - [print] to the console is recorded for the callback only.
    - [x ** 2] raises [OverflowError] when the square of a finite [x] is
      out of range; the callback is modelled with that error, and what is
      said of a call that completes is said under [in_range].
    - Statements about the order of distances are made for frames whose
      distances are numbers; [distance_numeric] shows that these are all
      the frames whose coordinates are not NaN.
    - An interrupt may reach [main] anywhere: [main_with] is the
      [try] / [except KeyboardInterrupt] / [finally] of [main] around any
      block, with teardown calls that may raise anything. *)

From Stdlib Require Import List String Ascii Bool ZArith NArith PArith Lia.
From Stdlib Require Import Permutation Sorted DecimalString DecimalN.
From Stdlib Require Import SpecFloat.
Import ListNotations.
Local Open Scope string_scope.
Local Open Scope list_scope.

(* ================================================================= *)
(** ** Python floats *)

Module Float64.

Definition prec : Z := 53.
Definition emax : Z := 1024.

Definition float : Type := spec_float.

(** The double nearest to [m * 2^e]. *)
Definition dyadic (m e : Z) : float := binary_normalize prec emax m e false.

Definition is_nan (x : float) : bool :=
  match x with S754_nan => true | _ => false end.

Definition is_finite (x : float) : bool :=
  match x with
  | S754_zero _ | S754_finite _ _ _ => true
  | _ => false
  end.

(** Zero, a positive finite value or plus infinity. *)
Definition nonneg (x : float) : Prop :=
  match x with
  | S754_zero false | S754_infinity false | S754_finite false _ _ => True
  | _ => False
  end.

(** [a < b] *)
Definition lt (a b : float) : bool := SFltb a b.


(** [a == b] *)
Definition eqb (a b : float) : bool := SFeqb a b.

(** [a + b] *)
Definition add (a b : float) : float := SFadd prec emax a b.

(** The value of [x ** 2] when the power is in range.  CPython evaluates
    [pow(x, 2.0)]; the coordinates handed to the callback are
    single-precision values widened to double, whose square is exact in
    binary64, so the power is the IEEE product (for other doubles the two
    may differ in the last bit). *)
Definition pow2 (x : float) : float := SFmul prec emax x x.

Definition is_infinity (x : float) : bool :=
  match x with S754_infinity _ => true | _ => false end.

(** [x ** 2] is out of range: [x] is finite and its square is not.
    CPython then raises [OverflowError]. *)
Definition pow2_overflows (x : float) : bool :=
  is_finite x && is_infinity (pow2 x).

(** [math.sqrt] *)
Definition sqrt (x : float) : float := SFsqrt prec emax x.

(** Decimal digits of a natural number, as [str] prints an [int]. *)
Definition str_N (n : N) : string := NilEmpty.string_of_uint (N.to_uint n).

(** The value of a finite double in hundredths, rounded to nearest with
    ties to even: the integer [q] such that [q / 100] is what [.2f]
    prints for [m * 2^e]. *)
Definition hundredths (m : positive) (e : Z) : N :=
  let n := (Npos m * 100)%N in
  match e with
  | Z0 => n
  | Zpos p => N.shiftl n (Npos p)
  | Zneg p =>
      let d := N.shiftl 1 (Npos p) in
      let q := (n / d)%N in
      let r := (n mod d)%N in
      match (2 * r ?= d)%N with
      | Lt => q
      | Gt => N.succ q
      | Eq => if N.even q then q else N.succ q
      end
  end.

Definition two_digits (n : N) : string :=
  if (n <? 10)%N then "0" ++ str_N n else str_N n.

(** The format specification [.2f] *)
Definition format_2f (x : float) : string :=
  match x with
  | S754_nan => "nan"
  | S754_infinity s => if s then "-inf" else "inf"
  | S754_zero s => if s then "-0.00" else "0.00"
  | S754_finite s m e =>
      let q := hundredths m e in
      (if s then "-" else "") ++
        str_N (q / 100) ++ "." ++ two_digits (q mod 100)
  end.

End Float64.

Definition float : Type := Float64.float.

(* ================================================================= *)
(** ** The semantic taxonomy *)

(** [object_id], as an insertion-ordered dictionary. *)
Definition object_id : list (string * N) :=
  [ ("None", 0); ("Buildings", 1); ("Fences", 2); ("Other", 3);
    ("Pedestrians", 4); ("Poles", 5); ("RoadLines", 6); ("Roads", 7);
    ("Sidewalks", 8); ("Vegetation", 9); ("Vehicles", 10); ("Wall", 11);
    ("TrafficsSigns", 12); ("Sky", 13); ("Ground", 14); ("Bridge", 15);
    ("RailTrack", 16); ("GuardRail", 17); ("TrafficLight", 18);
    ("Static", 19); ("Dynamic", 20); ("Water", 21); ("Terrain", 22) ]%N.

Definition key_list : list string := map fst object_id.
Definition value_list : list N := map snd object_id.

(** [list.index]: the position of the first element equal to [v];
    [None] stands for [ValueError]. *)
Fixpoint list_index (v : N) (l : list N) : option nat :=
  match l with
  | [] => None
  | x :: l' =>
      if N.eqb x v then Some 0%nat
      else option_map S (list_index v l')
  end.

(** Lines 124-127: the name of a tag, with the [ValueError] handler. *)
Definition class_name (tag : N) : string :=
  match list_index tag value_list with
  | Some i => nth i key_list ""
  | None => "Unknown(" ++ Float64.str_N tag ++ ")"
  end.

(* ================================================================= *)
(** ** Exceptions *)

Inductive exn :=
| RuntimeError (msg : string)
| IndexError (msg : string)
| KeyboardInterrupt
| OverflowError (msg : string).

(** [except Exception] catches every error but the interrupt. *)
Definition is_Exception (e : exn) : bool :=
  match e with
  | KeyboardInterrupt => false
  | _ => true
  end.

Inductive result (A : Type) :=
| Ok (a : A)
| Raise (e : exn).
Arguments Ok {A} a.
Arguments Raise {A} e.

(* ================================================================= *)
(** ** Detections, rows and files *)

Record location := Location { loc_x : float; loc_y : float; loc_z : float }.

(** A detection exposes its coordinates either directly ([detection.x]) or
    through [detection.point]; the callback tries the first and falls back
    to the second on [AttributeError]. *)
Inductive detection :=
| DetFlat (x y z : float) (object_tag : N)
| DetPoint (point : location) (object_tag : N).

Definition object_tag (d : detection) : N :=
  match d with
  | DetFlat _ _ _ t => t
  | DetPoint _ t => t
  end.

(** [x, y, z = detection.x, detection.y, detection.z], with the fallback. *)
Definition coords (d : detection) : float * float * float :=
  match d with
  | DetFlat x y z _ => (x, y, z)
  | DetPoint p _ => (loc_x p, loc_y p, loc_z p)
  end.

Inductive cell :=
| CStr (s : string)
| CFloat (f : float)
| CInt (n : N).

Definition row := list cell.

(** What the callback reads and writes: the two CSV files, the console and
    the number of clock readings taken so far. *)
Record io_state := IOState {
  raw_lidar_csv : list row;
  detection_log_csv : list row;
  stdout : list string;
  clock_reads : nat
}.

(** Lines 81-87: both files are created with their header row. *)
Definition initial_io : io_state :=
  {| raw_lidar_csv :=
       [[CStr "timestamp"; CStr "x"; CStr "y"; CStr "z"; CStr "object_tag"]];
     detection_log_csv := [[CStr "timestamp"; CStr "detections_summary"]];
     stdout := [];
     clock_reads := 0 |}.

(* ================================================================= *)
(** ** The sensor callback *)

(** The dictionary [nearest]: keys in insertion order. *)
Definition dict := list (string * float).

Fixpoint dict_get (k : string) (d : dict) : option float :=
  match d with
  | [] => None
  | (k', v) :: d' => if String.eqb k' k then Some v else dict_get k d'
  end.

(** [d[k] = v]: an existing key keeps its place, a new one goes last. *)
Fixpoint dict_set (k : string) (v : float) (d : dict) : dict :=
  match d with
  | [] => [(k, v)]
  | (k', v') :: d' =>
      if String.eqb k' k then (k', v) :: d' else (k', v') :: dict_set k v d'
  end.

(** What [float.__pow__] raises when the power is out of range. *)
Definition out_of_range : exn :=
  OverflowError "(34, 'Numerical result out of range')".

(** [x ** 2], with its error. *)
Definition power2 (x : float) : result float :=
  if Float64.pow2_overflows x then Raise out_of_range
  else Ok (Float64.pow2 x).

(** Line 132: the three powers are taken from left to right, the first
    out of range raises. *)
Definition checked_distance (d : detection) : result float :=
  let '(x, y, z) := coords d in
  match power2 x with
  | Raise e => Raise e
  | Ok x2 =>
      match power2 y with
      | Raise e => Raise e
      | Ok y2 =>
          match power2 z with
          | Raise e => Raise e
          | Ok z2 =>
              Ok (Float64.sqrt (Float64.add (Float64.add x2 y2) z2))
          end
      end
  end.

(** The value of line 132 when no power is out of range. *)
Definition distance (d : detection) : float :=
  let '(x, y, z) := coords d in
  Float64.sqrt
    (Float64.add (Float64.add (Float64.pow2 x) (Float64.pow2 y))
                 (Float64.pow2 z)).

(** Lines 123-134: one turn of the second loop, when line 132 gives a
    value. *)
Definition nearest_step (nearest : dict) (d : detection) : dict :=
  let name := class_name (object_tag d) in
  let dist := distance d in
  match dict_get name nearest with
  | None => dict_set name dist nearest
  | Some cur =>
      if Float64.lt dist cur then dict_set name dist nearest else nearest
  end.

(** The dictionary at the end of the loop, when every turn gives a
    value. *)
Definition nearest_of (point_cloud_data : list detection) : dict :=
  fold_left nearest_step point_cloud_data [].

(** Lines 122-134: the second loop, from the dictionary [nearest] on; it
    stops at the first detection for which line 132 raises. *)
Fixpoint nearest_loop (point_cloud_data : list detection) (nearest : dict)
  : result dict :=
  match point_cloud_data with
  | [] => Ok nearest
  | detection :: rest =>
      let name := class_name (object_tag detection) in
      match checked_distance detection with
      | Raise e => Raise e
      | Ok dist =>
          nearest_loop rest
            match dict_get name nearest with
            | None => dict_set name dist nearest
            | Some cur =>
                if Float64.lt dist cur then dict_set name dist nearest
                else nearest
            end
      end
  end.

(** [sorted(items, key=lambda x: x[1])]: a stable sort that compares keys
    with [<] only.  Each element is put in front of the first one of the
    already sorted rest that is not smaller.  On keys that are numbers a
    stable sort has one result ([sorted_by_distance_unique]); with a NaN
    among the keys CPython's result depends on its algorithm and is not
    the one given here. *)
Fixpoint insert_item (x : string * float) (l : list (string * float))
  : list (string * float) :=
  match l with
  | [] => [x]
  | y :: l' =>
      if Float64.lt (snd y) (snd x) then y :: insert_item x l' else x :: l
  end.

Fixpoint sorted_by_distance (l : list (string * float))
  : list (string * float) :=
  match l with
  | [] => []
  | x :: l' => insert_item x (sorted_by_distance l')
  end.

(** Line 138: [sorted(nearest.items(), key=lambda x: x[1])[:8]] *)
Definition nearest_items (nearest : dict) : list (string * float) :=
  firstn 8 (sorted_by_distance nearest).

(** [f"{n}:{d:.2f}"] *)
Definition render_item (it : string * float) : string :=
  fst it ++ ":" ++ Float64.format_2f (snd it).

(** Lines 136-139 *)
Definition detections_summary_of (nearest : dict) : string :=
  match nearest with
  | [] => ""
  | _ :: _ => String.concat ", " (map render_item (nearest_items nearest))
  end.

(** Lines 105-113: one raw row per detection. *)
Definition raw_row (timestamp : string) (d : detection) : row :=
  let '(x, y, z) := coords d in
  [CStr timestamp; CFloat x; CFloat y; CFloat z; CInt (object_tag d)].

Section Callback.

(** [strftime_now k] is what [datetime.now().strftime(...)] returns the
    [k]-th time the clock is read. *)
Variable strftime_now : nat -> string.

(** The callback ends normally or with the error of line 132, which is
    raised after the raw rows are written and before the summary is. *)
Definition semantic_lidar_data (point_cloud_data : list detection)
    (st : io_state) : result unit * io_state :=
  let timestamp := strftime_now (clock_reads st) in
  let raw_points := map (raw_row timestamp) point_cloud_data in
  let written :=
    {| raw_lidar_csv := raw_lidar_csv st ++ raw_points;
       detection_log_csv := detection_log_csv st;
       stdout := stdout st;
       clock_reads := S (clock_reads st) |} in
  match nearest_loop point_cloud_data [] with
  | Raise e => (Raise e, written)
  | Ok nearest =>
      let detections_summary := detections_summary_of nearest in
      (Ok tt,
       {| raw_lidar_csv := raw_lidar_csv written;
          detection_log_csv :=
            detection_log_csv written
              ++ [[CStr timestamp; CStr detections_summary]];
          stdout :=
            match nearest with
            | [] => stdout written
            | _ :: _ =>
                stdout written ++
                  [("Detected (name : distance m) -> "
                      ++ detections_summary)%string]
            end;
          clock_reads := clock_reads written |})
  end.

End Callback.

(** *** Vocabulary of the statements about a frame *)

Definition class_of (d : detection) : string := class_name (object_tag d).

(** No power of line 132 is out of range for the detection. *)
Definition detection_in_range (d : detection) : bool :=
  let '(x, y, z) := coords d in
  negb (Float64.pow2_overflows x) && negb (Float64.pow2_overflows y)
  && negb (Float64.pow2_overflows z).

(** Nor for any detection of the frame. *)
Definition in_range (frame : list detection) : Prop :=
  forall d, In d frame -> detection_in_range d = true.

Definition frame_in_range (frame : list detection) : bool :=
  forallb detection_in_range frame.

(** Not a finite value of magnitude [2^128] or more: what every
    single-precision value widened to double is.  ([m] has at most 53
    digits in every double.) *)
Definition below_2pow128 (x : float) : bool :=
  match x with
  | S754_finite _ m e =>
      (Zpos (digits2_pos m) <=? 53)%Z && (Zpos (digits2_pos m) + e <=? 128)%Z
  | _ => true
  end.

(** The three coordinates of the detection are such values. *)
Definition single_precision_range (d : detection) : bool :=
  let '(x, y, z) := coords d in
  below_2pow128 x && below_2pow128 y && below_2pow128 z.


(** The position of the first detection of class [name] in the frame
    (the length of the frame when there is none). *)
Fixpoint first_seen (name : string) (frame : list detection) : nat :=
  match frame with
  | [] => 0
  | d :: rest =>
      if String.eqb (class_of d) name then 0 else S (first_seen name rest)
  end.




(** [a] occurs in [l] at a position before an occurrence of [b]. *)
Definition precedes {A} (a b : A) (l : list A) : Prop :=
  exists l1 l2 l3, l = l1 ++ a :: l2 ++ b :: l3.

(** The item's distance is a number. *)
Definition numeric_item (it : string * float) : Prop :=
  Float64.is_nan (snd it) = false.

(** [b] does not come before [a] in the order of distances. *)
Definition not_after (a b : string * float) : Prop :=
  Float64.lt (snd b) (snd a) = false.

(** The item is at distance [k]: neither nearer nor farther. *)
Definition same_distance (k : float) (a : string * float) : bool :=
  negb (Float64.lt (snd a) k) && negb (Float64.lt k (snd a)).


(** Sample data: the frame of three detections at distances 12.5,
    3.1 (the single-precision value) and 9, tagged 7, 7 and 10. *)
Definition f0 : float := S754_zero false.
Definition sample_frame : list detection :=
  [ DetPoint (Location (Float64.dyadic 25 (-1)) f0 f0) 7;
    DetPoint (Location f0 (Float64.dyadic 13002342 (-22)) f0) 7;
    DetFlat f0 f0 (Float64.dyadic 9 0) 10 ].

(** One detection, tagged 7, whose first coordinate is [1e200]. *)
Definition overflow_frame : list detection :=
  [DetFlat (S754_finite false 5883593420661338 612) f0 f0 7].

(** A clock whose [k]-th reading ends with [k]. *)
Definition sample_clock (k : nat) : string :=
  ("2025-01-01 12:00:00.00000" ++ Float64.str_N (N.of_nat k))%string.

(** The same frame with one more detection, of a tag outside the
    taxonomy, at distance 2. *)
Definition sample_frame_unknown : list detection :=
  sample_frame ++ [DetFlat (Float64.dyadic 2 0) f0 f0 23].


(* ================================================================= *)
(** ** The process state and its monad *)

Definition actor_id := N.

Record rotation := Rotation { pitch : float; yaw : float; roll : float }.
Record transform := Transform { tr_location : location; tr_rotation : rotation }.

(** A vehicle blueprint: its id and, for the attributes the provisioner
    looks at, the recommended values ([None]: no such attribute). *)
Record blueprint := Blueprint {
  bp_id : string;
  bp_color : option (list string);
  bp_driver_id : option (list string)
}.

(** [SpawnActor(bp, transform).then(SetAutopilot(FutureActor, True, port))]:
    the command keeps the attribute values the blueprint has when the
    command is built. *)
Record spawn_request := SpawnRequest {
  req_blueprint : string;
  req_color : option string;
  req_driver_id : option string;
  req_role_name : string;
  req_transform : transform;
  req_autopilot_port : N
}.

Inductive command :=
| SpawnActor (r : spawn_request)
| DestroyActor (a : actor_id).

(** [carla.command.Response]: [error] is a string, empty on success. *)
Record response := Response { res_error : string; res_actor_id : actor_id }.

(** What the process asks of the simulator and what it logs, in order. *)
Inductive event :=
| EvSpawnActor (bp : string) (t : transform) (attach_to : option actor_id)
| EvApplyBatchSync (batch : list command)
| EvApplyBatch (batch : list command)
| EvDestroy (a : actor_id)
| EvSetAutopilot (vehicle : actor_id)
| EvSetSpectator (vehicle : actor_id)
| EvListen (sensor : actor_id)
| EvTick
| EvWaitForTick
| EvWarning (msg : string).

(** The answers of the simulator.  A simulator call that fails raises a
    [RuntimeError], given by its message; [apply_batch_sync] is taken to
    answer.  An interrupt is not an answer of the simulator and may arrive
    anywhere: in the loop it is [loop_exit], elsewhere it is covered by
    [main_with], for any block and any error of the teardown calls. *)
Record environment := Environment {
  blueprint_filter : string -> list blueprint;
  map_spawn_points : list transform;
  tm_port : N;
  rand_raw : nat -> nat;
  spawn_actor_result :
    string -> transform -> option actor_id -> string + actor_id;
  batch_sync_result : list command -> list response;
  apply_batch_error : list command -> option string;
  destroy_error : actor_id -> option string;
  synchronous_mode : bool;
  loop_turns : nat;
  loop_exit : exn
}.

(** The module-level lists, the position in the random stream and the
    trace of events. *)
Record proc_state := ProcState {
  actor_list : list actor_id;
  spawned_vehicle_ids : list actor_id;
  rng_pos : nat;
  trace : list event
}.

Definition initial_proc : proc_state :=
  {| actor_list := []; spawned_vehicle_ids := []; rng_pos := 0; trace := [] |}.

Definition M (A : Type) : Type := proc_state -> result A * proc_state.

Definition ret {A} (a : A) : M A := fun st => (Ok a, st).

Definition raise {A} (e : exn) : M A := fun st => (Raise e, st).

Definition bind {A B} (m : M A) (k : A -> M B) : M B :=
  fun st =>
    match m st with
    | (Ok a, st') => k a st'
    | (Raise e, st') => (Raise e, st')
    end.

Notation "x <- m ;; k" := (bind m (fun x => k))
  (at level 61, m at next level, right associativity).
Notation "m ;;; k" := (bind m (fun _ => k))
  (at level 61, right associativity).

Definition emit (ev : event) : M unit :=
  fun st =>
    (Ok tt,
     {| actor_list := actor_list st;
        spawned_vehicle_ids := spawned_vehicle_ids st;
        rng_pos := rng_pos st;
        trace := trace st ++ [ev] |}).

(** [try: m except Exception: pass] *)
Definition try_pass (m : M unit) : M unit :=
  fun st =>
    match m st with
    | (Raise e, st') =>
        if is_Exception e then (Ok tt, st') else (Raise e, st')
    | r => r
    end.

(* ================================================================= *)
(** ** The random module *)

Section Random.

Variable env : environment.

(** [_randbelow(n)] for [n > 0] *)
Definition randbelow (n : nat) : M nat :=
  fun st =>
    (Ok (Nat.modulo (rand_raw env (rng_pos st)) n),
     {| actor_list := actor_list st;
        spawned_vehicle_ids := spawned_vehicle_ids st;
        rng_pos := S (rng_pos st);
        trace := trace st |}).

(** [random.choice] *)
Definition choice {A} (seq : list A) : M A :=
  match seq with
  | [] => raise (IndexError "Cannot choose from an empty sequence")
  | _ :: _ =>
      i <- randbelow (List.length seq) ;;
      match nth_error seq i with
      | Some a => ret a
      | None => raise (IndexError "list index out of range")
      end
  end.

Fixpoint list_set {A} (n : nat) (v : A) (l : list A) : list A :=
  match l, n with
  | [], _ => []
  | _ :: t, O => v :: t
  | x :: t, S n' => x :: list_set n' v t
  end.

(** [x[i], x[j] = x[j], x[i]] *)
Definition swap {A} (i j : nat) (x : list A) : list A :=
  match nth_error x i, nth_error x j with
  | Some a, Some b => list_set j a (list_set i b x)
  | _, _ => x
  end.

(** [random.shuffle]: for [i] from [len(x) - 1] down to [1], swap
    [x[i]] with [x[randbelow(i + 1)]]. *)
Fixpoint shuffle_from {A} (i : nat) (x : list A) : M (list A) :=
  match i with
  | O => ret x
  | S i' =>
      j <- randbelow (S i) ;;
      shuffle_from i' (swap i j x)
  end.

Definition shuffle {A} (x : list A) : M (list A) :=
  shuffle_from (Nat.pred (List.length x)) x.

End Random.

(* ================================================================= *)
(** ** The fleet provisioner *)

Definition NUM_VEHICLES : Z := 30.
Definition HERO_MODEL_FILTER : string := "model3".

Section Fleet.

Variable env : environment.

(** [random.choice(bp.get_attribute(a).recommended_values)] when the
    blueprint has attribute [a]. *)
Definition choose_attribute (recommended : option (list string))
  : M (option string) :=
  match recommended with
  | Some values => v <- choice env values ;; ret (Some v)
  | None => ret None
  end.

(** Lines 177-188.  [n] counts the spawn points already visited. *)
Fixpoint build_batch (blueprints : list blueprint) (n_spawn : Z) (n : nat)
    (spawn_points : list transform) (batch : list command)
  : M (list command) :=
  match spawn_points with
  | [] => ret batch
  | transform :: rest =>
      if (n_spawn <=? Z.of_nat n)%Z then ret batch
      else
        bp <- choice env blueprints ;;
        color <- choose_attribute (bp_color bp) ;;
        driver <- choose_attribute (bp_driver_id bp) ;;
        build_batch blueprints n_spawn (S n) rest
          (batch ++
             [SpawnActor
                {| req_blueprint := bp_id bp;
                   req_color := color;
                   req_driver_id := driver;
                   req_role_name := "autopilot";
                   req_transform := transform;
                   req_autopilot_port := tm_port env |}])
  end.

(** Lines 192-196 *)
Fixpoint collect_responses (responses : list response)
    (spawned_ids : list actor_id) : M (list actor_id) :=
  match responses with
  | [] => ret spawned_ids
  | res :: rest =>
      if String.eqb (res_error res) ""
      then collect_responses rest (spawned_ids ++ [res_actor_id res])
      else
        emit (EvWarning ("Spawn vehicle error: " ++ res_error res)%string) ;;;
        collect_responses rest spawned_ids
  end.

(** Lines 190-197 *)
Definition submit_batch (batch : list command) : M (list actor_id) :=
  emit (EvApplyBatchSync batch) ;;;
  collect_responses (batch_sync_result env batch) [].

Definition spawn_vehicles_batch (filter : string) (number : Z)
  : M (list actor_id) :=
  match blueprint_filter env filter with
  | [] =>
      raise (RuntimeError
               ("No vehicle blueprints found for filter: " ++ filter)%string)
  | (_ :: _) as blueprints =>
      blueprints <- shuffle env blueprints ;;
      let spawn_points := map_spawn_points env in
      if Nat.eqb (List.length spawn_points) 0
      then raise (RuntimeError "No spawn points in the map")
      else
        let n_spawn := Z.min number (Z.of_nat (List.length spawn_points)) in
        spawn_points <- shuffle env spawn_points ;;
        batch <- build_batch blueprints n_spawn 0 spawn_points [] ;;
        submit_batch batch
  end.

(* =============================================================== *)
(** ** Start-up, main loop and teardown *)

Definition spawn_actor (bp : string) (t : transform)
    (attach_to : option actor_id) : M actor_id :=
  emit (EvSpawnActor bp t attach_to) ;;;
  match spawn_actor_result env bp t attach_to with
  | inl msg => raise (RuntimeError msg)
  | inr a => ret a
  end.

Definition append_actor (a : actor_id) : M unit :=
  fun st =>
    (Ok tt,
     {| actor_list := actor_list st ++ [a];
        spawned_vehicle_ids := spawned_vehicle_ids st;
        rng_pos := rng_pos st;
        trace := trace st |}).

Definition extend_spawned (ids : list actor_id) : M unit :=
  fun st =>
    (Ok tt,
     {| actor_list := actor_list st;
        spawned_vehicle_ids := spawned_vehicle_ids st ++ ids;
        rng_pos := rng_pos st;
        trace := trace st |}).

(** [carla.Transform(carla.Location(x=0.0, y=0.0, z=2.2))] *)
Definition lidar_transform : transform :=
  Transform (Location f0 f0 (S754_finite false 4953959590107546 (-51)))
            (Rotation f0 f0 f0).

(** Lines 245-251.  The loop has no exit of its own: it ends when a
    call in it raises, after [turns] complete turns, with [loop_exit]. *)
Fixpoint main_loop (hero_vehicle : actor_id) (turns : nat) : M unit :=
  match turns with
  | O => raise (loop_exit env)
  | S k =>
      emit (if synchronous_mode env then EvTick else EvWaitForTick) ;;;
      emit (EvSetSpectator hero_vehicle) ;;;
      main_loop hero_vehicle k
  end.

(** Lines 206-251: the body of the [try]. *)
Definition main_body : M unit :=
  hero_bp <-
    match blueprint_filter env HERO_MODEL_FILTER with
    | [] => choice env (blueprint_filter env "vehicle.*")
    | b :: _ => ret b
    end ;;
  spawn_point <-
    match map_spawn_points env with
    | [] => raise (IndexError "list index out of range")
    | p :: _ => ret p
    end ;;
  hero_vehicle <- spawn_actor (bp_id hero_bp) spawn_point None ;;
  append_actor hero_vehicle ;;;
  emit (EvSetAutopilot hero_vehicle) ;;;
  vehicle_ids <- spawn_vehicles_batch "vehicle.*" NUM_VEHICLES ;;
  extend_spawned vehicle_ids ;;;
  lidar <-
    spawn_actor "sensor.lidar.ray_cast_semantic" lidar_transform
      (Some hero_vehicle) ;;
  append_actor lidar ;;;
  emit (EvSetSpectator hero_vehicle) ;;;
  emit (EvListen lidar) ;;;
  main_loop hero_vehicle (loop_turns env).

(** Line 258 *)
Definition apply_batch (batch : list command) : M unit :=
  emit (EvApplyBatch batch) ;;;
  match apply_batch_error env batch with
  | Some msg => raise (RuntimeError msg)
  | None => ret tt
  end.

(** Line 263 *)
Definition destroy (a : actor_id) : M unit :=
  emit (EvDestroy a) ;;;
  match destroy_error env a with
  | Some msg => raise (RuntimeError msg)
  | None => ret tt
  end.

(** Lines 261-265 *)
Fixpoint destroy_each (actors : list actor_id) : M unit :=
  match actors with
  | [] => ret tt
  | actor :: rest => try_pass (destroy actor) ;;; destroy_each rest
  end.

(** Lines 256-266: the [finally] block. *)
Definition teardown : M unit :=
  fun st =>
    (try_pass (apply_batch (map DestroyActor (spawned_vehicle_ids st))) ;;;
     destroy_each (actor_list st)) st.

(** [try: ... except KeyboardInterrupt: ... finally: ...] *)
Definition main : M unit :=
  fun st =>
    let (r, st1) := main_body st in
    let r' :=
      match r with
      | Raise KeyboardInterrupt => Ok tt
      | _ => r
      end in
    match teardown st1 with
    | (Ok _, st2) => (r', st2)
    | (Raise e, st2) => (Raise e, st2)
    end.

End Fleet.

(* ================================================================= *)
(** ** Interrupts *)

Section Finally.

(** What a call of the [finally] block raises, if it raises: an error of
    the simulator or an interrupt.  An interrupt that arrives in the
    [finally] block is taken to arrive during one of its two kinds of
    call, once the call is entered. *)
Variable batch_raises : list command -> option exn.
Variable destroy_raises : actor_id -> option exn.

(** Line 258 *)
Definition apply_batch_with (batch : list command) : M unit :=
  emit (EvApplyBatch batch) ;;;
  match batch_raises batch with
  | Some e => raise e
  | None => ret tt
  end.

(** Line 263 *)
Definition destroy_with (a : actor_id) : M unit :=
  emit (EvDestroy a) ;;;
  match destroy_raises a with
  | Some e => raise e
  | None => ret tt
  end.

(** Lines 261-265 *)
Fixpoint destroy_each_with (actors : list actor_id) : M unit :=
  match actors with
  | [] => ret tt
  | actor :: rest => try_pass (destroy_with actor) ;;; destroy_each_with rest
  end.

(** Lines 256-266: the [finally] block. *)
Definition teardown_with : M unit :=
  fun st =>
    (try_pass (apply_batch_with (map DestroyActor (spawned_vehicle_ids st))) ;;;
     destroy_each_with (actor_list st)) st.

(** Lines 205-266: [try: body except KeyboardInterrupt: ... finally: ...],
    for any [body].  An interrupt that arrives in the block at line 206 or
    later is a [body] that raises it. *)
Definition main_with (body : M unit) : M unit :=
  fun st =>
    let (r, st1) := body st in
    let r' :=
      match r with
      | Raise KeyboardInterrupt => Ok tt
      | _ => r
      end in
    match teardown_with st1 with
    | (Ok _, st2) => (r', st2)
    | (Raise e, st2) => (Raise e, st2)
    end.

End Finally.

(** The errors the teardown calls raise in the environment [env]. *)
Definition batch_raises_of (env : environment) (batch : list command)
  : option exn :=
  option_map RuntimeError (apply_batch_error env batch).

Definition destroy_raises_of (env : environment) (a : actor_id)
  : option exn :=
  option_map RuntimeError (destroy_error env a).

(** The teardown calls raise no interrupt. *)
Definition only_exceptions {A} (raises : A -> option exn) : Prop :=
  forall a e, raises a = Some e -> is_Exception e = true.

(** *** Vocabulary of the statements about the process *)

(** The state after the events [evs] have been recorded. *)
Definition add_events (evs : list event) (st : proc_state) : proc_state :=
  {| actor_list := actor_list st;
     spawned_vehicle_ids := spawned_vehicle_ids st;
     rng_pos := rng_pos st;
     trace := trace st ++ evs |}.

(** The two states differ at most by the position in the random stream:
    nothing was asked of the simulator, nothing logged, no list changed. *)
Definition rng_only (st st' : proc_state) : Prop :=
  actor_list st' = actor_list st /\
  spawned_vehicle_ids st' = spawned_vehicle_ids st /\
  trace st' = trace st.

(** The actor ids of the responses without error, and the warnings logged
    for the others, both in the order of the responses. *)
Definition succeeded (responses : list response) : list actor_id :=
  map res_actor_id
      (filter (fun res => String.eqb (res_error res) "") responses).

Definition failed (responses : list response) : list event :=
  map (fun res => EvWarning ("Spawn vehicle error: " ++ res_error res)%string)
      (filter (fun res => negb (String.eqb (res_error res) "")) responses).

(** Every attribute the provisioner draws a value for offers one. *)
Definition blueprint_ok (bp : blueprint) : Prop :=
  bp_color bp <> Some [] /\ bp_driver_id bp <> Some [].

(** The actors a trace asks the simulator to destroy, one entry per
    attempt. *)
Fixpoint destroy_attempts (evs : list event) : list actor_id :=
  match evs with
  | [] => []
  | EvApplyBatch batch :: rest =>
      flat_map (fun c => match c with DestroyActor a => [a] | _ => [] end)
               batch
      ++ destroy_attempts rest
  | EvDestroy a :: rest => a :: destroy_attempts rest
  | _ :: rest => destroy_attempts rest
  end.

(** What one teardown asks of the simulator, given the lists of [st]. *)
Definition teardown_events (st : proc_state) : list event :=
  EvApplyBatch (map DestroyActor (spawned_vehicle_ids st))
    :: map EvDestroy (actor_list st).

(** The events of a running session: the sensor callback registered, the
    simulator ticked or waited for. *)
Definition session_event (ev : event) : bool :=
  match ev with
  | EvListen _ | EvTick | EvWaitForTick => true
  | _ => false
  end.

(** *** Sample worlds *)

Definition sample_blueprints : list blueprint :=
  [ Blueprint "vehicle.tesla.model3" (Some ["255,0,0"; "0,0,0"]) None;
    Blueprint "vehicle.bh.crossbike" None (Some ["1"; "2"]) ].

Definition spawn_point_at (n : Z) : transform :=
  Transform (Location (Float64.dyadic n 0) f0 f0) (Rotation f0 f0 f0).

(** A simulator that creates every second vehicle of a batch and rejects
    the others. *)
Fixpoint sample_responses (n : N) (batch : list command) : list response :=
  match batch with
  | [] => []
  | _ :: rest =>
      (if N.even n then Response "" (100 + n)%N
       else Response "Spawn failed because of collision at spawn position" 0%N)
        :: sample_responses (N.succ n) rest
  end.

(** A map with [spawn_points]; the hero is actor 1, the sensor actor 2,
    and actor 1 cannot be destroyed. *)
Definition sample_env (blueprints : list blueprint)
    (spawn_points : list transform) : environment :=
  {| blueprint_filter :=
       fun f => if String.eqb f "vehicle.*" then blueprints else [];
     map_spawn_points := spawn_points;
     tm_port := 8000%N;
     rand_raw := fun k => 7 * k + 3;
     spawn_actor_result :=
       fun _ _ attach_to =>
         inr match attach_to with None => 1%N | Some _ => 2%N end;
     batch_sync_result := sample_responses 0;
     apply_batch_error := fun _ => None;
     destroy_error :=
       fun a => if N.eqb a 1 then Some "actor not found" else None;
     synchronous_mode := false;
     loop_turns := 2;
     loop_exit := KeyboardInterrupt |}.

Definition three_points : list transform :=
  [spawn_point_at 1; spawn_point_at 2; spawn_point_at 3].

Definition sample_batch : list command :=
  map (fun t =>
         SpawnActor
           (SpawnRequest "vehicle.tesla.model3" (Some "0,0,0") None
                         "autopilot" t 8000))
      three_points.

(** A start-up interrupted after the hero is registered, before the
    fleet is asked for. *)
Definition interrupted_startup : M unit :=
  hero_vehicle <-
    spawn_actor (sample_env sample_blueprints three_points)
                "vehicle.tesla.model3" (spawn_point_at 1) None ;;
  append_actor hero_vehicle ;;;
  raise KeyboardInterrupt.

(** An interrupt arrives while actor 1 is being destroyed. *)
Definition interrupted_destroy (a : actor_id) : option exn :=
  if N.eqb a 1 then Some KeyboardInterrupt else None.

(** The lists as [main] leaves them after a complete start-up. *)
Definition sample_proc : proc_state :=
  {| actor_list := [1; 2]%N;
     spawned_vehicle_ids := [100; 102]%N;
     rng_pos := 0;
     trace := [] |}.

(* ================================================================= *)
(** ** Successive frames, mirrored points, the main loop *)

(** [lidar.listen(lambda data: semantic_lidar_data(data))]: the simulator
    calls the callback once per frame, one frame after the other.  The
    client library reports the error of a call and goes on delivering: the
    next call starts from the files as the failed one left them. *)
Definition run_callbacks (clk : nat -> string) (frames : list (list detection))
    (st : io_state) : io_state :=
  fold_left (fun st frame => snd (semantic_lidar_data clk frame st)) frames st.

(** The raw rows of successive frames when the clock has been read [k]
    times before the first of them. *)
Fixpoint raw_rows_from (clk : nat -> string) (k : nat)
    (frames : list (list detection)) : list row :=
  match frames with
  | [] => []
  | frame :: rest => map (raw_row (clk k)) frame ++ raw_rows_from clk (S k) rest
  end.

(** Their summary rows: none for a frame whose call raises. *)
Fixpoint summary_rows_from (clk : nat -> string) (k : nat)
    (frames : list (list detection)) : list row :=
  match frames with
  | [] => []
  | frame :: rest =>
      match nearest_loop frame [] with
      | Ok nearest => [[CStr (clk k); CStr (detections_summary_of nearest)]]
      | Raise _ => []
      end ++ summary_rows_from clk (S k) rest
  end.

(** The detection with the same coordinates and tag, its coordinates
    read from the detection itself. *)
Definition to_flat (d : detection) : detection :=
  let '(x, y, z) := coords d in DetFlat x y z (object_tag d).

(** [-x] *)
Definition float_opp (x : float) : float := SFopp x.

(** What [turns] turns of the main loop ask of the simulator. *)
Fixpoint loop_events (synchronous : bool) (hero_vehicle : actor_id)
    (turns : nat) : list event :=
  match turns with
  | O => []
  | S k =>
      (if synchronous then EvTick else EvWaitForTick)
        :: EvSetSpectator hero_vehicle
        :: loop_events synchronous hero_vehicle k
  end.

Definition is_tick (ev : event) : bool :=
  match ev with
  | EvTick | EvWaitForTick => true
  | _ => false
  end.

(** From [st] to [st'] the two lists are untouched and the trace has only
    been added to. *)
Definition lists_kept (st st' : proc_state) : Prop :=
  actor_list st' = actor_list st /\
  spawned_vehicle_ids st' = spawned_vehicle_ids st /\
  exists evs, trace st' = trace st ++ evs.

(** From [st] to [st'] the lists and the trace have only been added to. *)
Definition grown (st st' : proc_state) : Prop :=
  (exists actors, actor_list st' = actor_list st ++ actors) /\
  (exists ids, spawned_vehicle_ids st' = spawned_vehicle_ids st ++ ids) /\
  exists evs, trace st' = trace st ++ evs.

(** What a request may carry for an attribute with the recommended
    values [recommended]. *)
Definition drawn_from (recommended : option (list string))
    (value : option string) : Prop :=
  match recommended, value with
  | None, None => True
  | Some values, Some v => In v values
  | _, _ => False
  end.

(** A request of the provisioner, for the catalog [blueprints]. *)
Definition well_built (env : environment) (blueprints : list blueprint)
    (r : spawn_request) : Prop :=
  req_role_name r = "autopilot" /\
  req_autopilot_port r = tm_port env /\
  exists bp,
    In bp blueprints /\ req_blueprint r = bp_id bp /\
    drawn_from (bp_color bp) (req_color r) /\
    drawn_from (bp_driver_id bp) (req_driver_id r).

(** Every run of [m] relates the state it starts from to the state it
    ends in by [R]. *)
Definition keeps {A} (R : proc_state -> proc_state -> Prop) (m : M A) : Prop :=
  forall st, R st (snd (m st)).

(** No run of [m] ends with an interrupt. *)
Definition no_interrupt {A} (m : M A) : Prop :=
  forall st e st', m st = (Raise e, st') -> is_Exception e = true.

(** What the start-up asks of the simulator when everything succeeds. *)
Definition startup_events (hero_bp : string) (spawn_point : transform)
    (hero_vehicle lidar : actor_id) (batch : list command)
    (warnings : list event) : list event :=
  [EvSpawnActor hero_bp spawn_point None; EvSetAutopilot hero_vehicle;
   EvApplyBatchSync batch]
    ++ warnings
    ++ [EvSpawnActor "sensor.lidar.ray_cast_semantic" lidar_transform
          (Some hero_vehicle);
        EvSetSpectator hero_vehicle; EvListen lidar].


(** A simulator that creates every vehicle, with the hero as actor 1 and
    the sensor as actor 2, and whose loop is interrupted after three
    turns. *)
Definition quiet_env : environment :=
  {| blueprint_filter :=
       fun f => if String.eqb f "vehicle.*" then sample_blueprints else [];
     map_spawn_points := three_points;
     tm_port := 8000%N;
     rand_raw := fun k => 5 * k + 1;
     spawn_actor_result :=
       fun _ _ attach_to =>
         inr match attach_to with None => 1%N | Some _ => 2%N end;
     batch_sync_result :=
       fun batch => map (fun _ => Response "" 7%N) batch;
     apply_batch_error := fun _ => None;
     destroy_error := fun _ => None;
     synchronous_mode := true;
     loop_turns := 3;
     loop_exit := KeyboardInterrupt |}.

(* ================================================================= *)
(** * Properties *)

(** ** The order on floats *)

Module Float64Facts.
Import Float64.

Ltac split_compare :=
  repeat match goal with
    | H : context [Pos.compare_cont Eq ?a ?b] |- _ =>
        change (Pos.compare_cont Eq a b) with (Pos.compare a b) in H
    | |- context [Pos.compare_cont Eq ?a ?b] =>
        change (Pos.compare_cont Eq a b) with (Pos.compare a b)
    end;
  repeat match goal with
    | H : context [Z.compare ?a ?b] |- _ =>
        destruct (Z.compare_spec a b); simpl in H; try discriminate H
    | H : context [Pos.compare ?a ?b] |- _ =>
        destruct (Pos.compare_spec a b); simpl in H; try discriminate H
    | |- context [Z.compare ?a ?b] =>
        destruct (Z.compare_spec a b); simpl
    | |- context [Pos.compare ?a ?b] =>
        destruct (Pos.compare_spec a b); simpl
    end;
  try reflexivity; try discriminate; try lia.

Lemma lt_irrefl (x : float) : lt x x = false.
Proof.
  unfold lt, SFltb.
  destruct x as [[]|[]| |[] m e]; simpl; try reflexivity;
    rewrite Z.compare_refl, Pos.compare_cont_refl; reflexivity.
Qed.

Lemma lt_trans (a b c : float) :
  lt a b = true -> lt b c = true -> lt a c = true.
Proof.
  unfold lt, SFltb.
  destruct a as [[]|[]| |[] ma ea], b as [[]|[]| |[] mb eb],
    c as [[]|[]| |[] mc ec]; simpl; intros Hab Hbc;
    try discriminate; try reflexivity; split_compare.
Qed.

(** Without NaN, "not smaller" is transitive: the order is a strict
    weak order. *)
Lemma lt_negtrans (a b c : float) :
  is_nan a = false -> is_nan b = false -> is_nan c = false ->
  lt a b = false -> lt b c = false -> lt a c = false.
Proof.
  unfold lt, SFltb.
  destruct a as [[]|[]| |[] ma ea], b as [[]|[]| |[] mb eb],
    c as [[]|[]| |[] mc ec]; simpl; intros Ha Hb Hc Hab Hbc;
    try discriminate; try reflexivity; split_compare.
Qed.

Lemma lt_asym (a b : float) : lt a b = true -> lt b a = false.
Proof.
  intros Hab. destruct (lt b a) eqn:Hba; [|reflexivity].
  rewrite <- (lt_irrefl a). symmetry. now apply lt_trans with b.
Qed.

(** *** Sums of squares and their roots are numbers *)

Lemma shr_1_nonneg mrs : (0 <= shr_m mrs)%Z -> (0 <= shr_m (shr_1 mrs))%Z.
Proof. destruct mrs as [[|[p|p|]|[p|p|]] r s]; simpl; lia. Qed.

Lemma iter_shr_1_nonneg p mrs :
  (0 <= shr_m mrs)%Z -> (0 <= shr_m (iter_pos shr_1 p mrs))%Z.
Proof.
  revert mrs. induction p as [p IH|p IH|]; intros mrs H; simpl.
  - apply IH, IH, shr_1_nonneg, H.
  - apply IH, IH, H.
  - apply shr_1_nonneg, H.
Qed.

Lemma shr_fexp_nonneg m e l :
  (0 <= m)%Z -> (0 <= shr_m (fst (shr_fexp prec emax m e l)))%Z.
Proof.
  intros Hm. unfold shr_fexp, shr.
  assert (H0 : (0 <= shr_m (shr_record_of_loc m l))%Z)
    by (destruct l as [|[]]; exact Hm).
  destruct (fexp prec emax (Zdigits2 m + e) - e)%Z; simpl; auto.
  now apply iter_shr_1_nonneg.
Qed.

Lemma round_nearest_even_nonneg m l :
  (0 <= m)%Z -> (0 <= round_nearest_even m l)%Z.
Proof.
  intros Hm. destruct l as [|[]]; simpl; try lia.
  destruct (Z.even m); lia.
Qed.

Lemma binary_round_aux_sign sx mx ex lx :
  (0 <= mx)%Z ->
  match binary_round_aux prec emax sx mx ex lx with
  | S754_nan => False
  | S754_zero s | S754_infinity s | S754_finite s _ _ => s = sx
  end.
Proof.
  intros Hm. unfold binary_round_aux.
  pose proof (shr_fexp_nonneg mx ex lx Hm) as H1.
  destruct (shr_fexp prec emax mx ex lx) as [mrs' e']. simpl in H1.
  pose proof (shr_fexp_nonneg
                (round_nearest_even (shr_m mrs') (loc_of_shr_record mrs'))
                e' loc_Exact (round_nearest_even_nonneg _ _ H1)) as H2.
  destruct (shr_fexp prec emax _ e' loc_Exact) as [mrs'' e'']. simpl in H2.
  destruct (shr_m mrs'') as [|m|m]; try reflexivity; try lia.
  now destruct (e'' <=? emax - prec)%Z.
Qed.

Lemma binary_round_aux_nonneg mx ex lx :
  (0 <= mx)%Z -> nonneg (binary_round_aux prec emax false mx ex lx).
Proof.
  intros Hm. pose proof (binary_round_aux_sign false mx ex lx Hm) as H.
  destruct (binary_round_aux prec emax false mx ex lx) as [s|s| |s m e];
    try subst s; simpl; tauto.
Qed.

Lemma pow2_nonneg x : is_nan x = false -> nonneg (pow2 x).
Proof.
  destruct x as [s|s| |s m e]; try discriminate; intros _;
    unfold pow2; simpl.
  - now destruct s.
  - now destruct s.
  - replace (xorb s s) with false by now destruct s.
    apply binary_round_aux_nonneg. lia.
Qed.

Lemma add_nonneg x y : nonneg x -> nonneg y -> nonneg (add x y).
Proof.
  destruct x as [[]|[]| |[] mx ex], y as [[]|[]| |[] my ey];
    simpl; try tauto; intros _ _.
  unfold binary_normalize. cbn [cond_Zopp Z.add].
  unfold binary_round.
  destruct (shl_align _ _ _) as [mz ez].
  apply binary_round_aux_nonneg. lia.
Qed.

Lemma sqrt_nonneg x : nonneg x -> nonneg (sqrt x).
Proof.
  destruct x as [[]|[]| |[] m e]; simpl; try tauto; intros _.
  unfold SFsqrt_core_binary.
  set (m' := match _ with Z0 => _ | Zpos _ => _ | Zneg _ => _ end).
  assert (Hm' : (0 <= m')%Z).
  { subst m'. destruct (e - 2 * _)%Z; try lia.
    apply Z.shiftl_nonneg. lia. }
  pose proof (Z.sqrtrem_spec m' Hm') as Hs.
  destruct (Z.sqrtrem m') as [q r].
  apply binary_round_aux_nonneg. nia.
Qed.

Lemma nonneg_not_nan x : nonneg x -> is_nan x = false.
Proof. destruct x as [[]|[]| |[] m e]; simpl; tauto. Qed.

End Float64Facts.

Import Float64Facts.



(* ================================================================= *)
(** ** The stable sort *)

Lemma insert_item_perm x l : Permutation (insert_item x l) (x :: l).
Proof.
  induction l as [|y l IH]; simpl; [reflexivity|].
  destruct (Float64.lt (snd y) (snd x)); [|reflexivity].
  rewrite IH. apply perm_swap.
Qed.

Lemma sorted_by_distance_perm l : Permutation (sorted_by_distance l) l.
Proof.
  induction l as [|x l IH]; simpl; [reflexivity|].
  rewrite insert_item_perm. now apply perm_skip.
Qed.


Lemma insert_item_sorted x l :
  numeric_item x -> Forall numeric_item l ->
  StronglySorted not_after l -> StronglySorted not_after (insert_item x l).
Proof.
  intros Hx Hl Hs. induction Hs as [|y l Hs IH Hy]; simpl.
  - repeat constructor.
  - inversion Hl as [|? ? Hny Hnl]; subst.
    destruct (Float64.lt (snd y) (snd x)) eqn:Hyx.
    + constructor; [now apply IH|].
      rewrite Forall_forall in *. intros z Hz.
      apply (Permutation_in _ (insert_item_perm x l)) in Hz.
      destruct Hz as [<-|Hz]; [|now apply Hy].
      now apply lt_asym.
    + constructor; [now constructor|].
      constructor; [exact Hyx|].
      rewrite Forall_forall in *. intros z Hz.
      unfold not_after in *.
      apply lt_negtrans with (snd y); auto.
      now apply Hnl.
Qed.

Lemma sorted_by_distance_sorted l :
  Forall numeric_item l -> StronglySorted not_after (sorted_by_distance l).
Proof.
  induction 1 as [|x l Hx Hl IH]; simpl; [constructor|].
  apply insert_item_sorted; auto.
  rewrite Forall_forall in *. intros z Hz. apply Hl.
  now apply (Permutation_in _ (sorted_by_distance_perm l)).
Qed.

Lemma insert_item_filter k x l :
  Float64.is_nan k = false -> numeric_item x -> Forall numeric_item l ->
  filter (same_distance k) (insert_item x l) =
  filter (same_distance k) (x :: l).
Proof.
  intros Hk Hx Hl. induction Hl as [|y l Hy Hl IH]; [reflexivity|].
  simpl insert_item. destruct (Float64.lt (snd y) (snd x)) eqn:Hyx.
  - change (filter (same_distance k) (y :: insert_item x l))
      with (if same_distance k y
            then y :: filter (same_distance k) (insert_item x l)
            else filter (same_distance k) (insert_item x l)).
    rewrite IH. simpl.
    destruct (same_distance k y) eqn:Hky, (same_distance k x) eqn:Hkx;
      try reflexivity.
    exfalso. unfold same_distance in *.
    apply andb_true_iff in Hky as [Hy1 _]. apply andb_true_iff in Hkx as [_ Hx2].
    apply negb_true_iff in Hy1, Hx2.
    rewrite (lt_negtrans (snd y) k (snd x)) in Hyx; auto. discriminate.
  - reflexivity.
Qed.

(** Stability: among the items at one distance the sort changes nothing. *)
Lemma sorted_by_distance_filter k l :
  Float64.is_nan k = false -> Forall numeric_item l ->
  filter (same_distance k) (sorted_by_distance l) =
  filter (same_distance k) l.
Proof.
  intros Hk Hl. induction Hl as [|x l Hx Hl IH]; [reflexivity|].
  simpl sorted_by_distance. rewrite insert_item_filter; auto.
  - simpl. now rewrite IH.
  - rewrite Forall_forall in *. intros z Hz. apply Hl.
    now apply (Permutation_in _ (sorted_by_distance_perm l)).
Qed.







(* ================================================================= *)
(** ** The dictionary [nearest] *)

Lemma dict_get_None k d : dict_get k d = None <-> ~ In k (map fst d).
Proof.
  induction d as [|[k' v] d IH]; simpl; [tauto|].
  destruct (String.eqb_spec k' k) as [->|Hne].
  - split; [discriminate|]. intros H. exfalso. apply H. now left.
  - rewrite IH. tauto.
Qed.

Lemma dict_get_In k v d : dict_get k d = Some v -> In (k, v) d.
Proof.
  induction d as [|[k' v'] d IH]; simpl; [discriminate|].
  destruct (String.eqb_spec k' k) as [->|Hne].
  - intros [= ->]. now left.
  - intros H. right. now apply IH.
Qed.


Lemma dict_set_new k v d : dict_get k d = None -> dict_set k v d = d ++ [(k, v)].
Proof.
  induction d as [|[k' v'] d IH]; simpl; [reflexivity|].
  destruct (String.eqb k' k); [discriminate|].
  intros H. now rewrite IH.
Qed.

Lemma dict_set_keys k v cur d :
  dict_get k d = Some cur -> map fst (dict_set k v d) = map fst d.
Proof.
  induction d as [|[k' v'] d IH]; simpl; [discriminate|].
  destruct (String.eqb k' k); [reflexivity|].
  intros H. simpl. now rewrite IH.
Qed.


Lemma nearest_of_snoc frame d :
  nearest_of (frame ++ [d]) = nearest_step (nearest_of frame) d.
Proof. unfold nearest_of. now rewrite fold_left_app. Qed.

Lemma first_seen_old name frame rest :
  In name (map class_of frame) ->
  first_seen name (frame ++ rest) = first_seen name frame /\
  first_seen name frame < List.length frame.
Proof.
  induction frame as [|d frame IH]; simpl; [tauto|].
  intros Hin. destruct (String.eqb_spec (class_of d) name) as [Heq|Hne].
  - split; [reflexivity|lia].
  - destruct Hin as [Hin|Hin]; [contradiction|].
    destruct (IH Hin) as [-> Hlt]. split; [reflexivity|lia].
Qed.

Lemma first_seen_new name frame rest :
  ~ In name (map class_of frame) ->
  first_seen name (frame ++ rest) = List.length frame + first_seen name rest.
Proof.
  induction frame as [|d frame IH]; simpl; [reflexivity|].
  intros Hin. destruct (String.eqb_spec (class_of d) name) as [Heq|Hne].
  - exfalso. apply Hin. now left.
  - rewrite IH; [reflexivity|tauto].
Qed.

Lemma precedes_snoc {A} (a b x : A) l :
  precedes a b (l ++ [x]) -> precedes a b l \/ (In a l /\ b = x).
Proof.
  intros (l1 & l2 & l3 & H).
  destruct l3 as [|y l3 _] using rev_ind.
  - right.
    replace (l1 ++ a :: l2 ++ [b]) with ((l1 ++ a :: l2) ++ [b]) in H
      by now rewrite <- app_assoc.
    apply app_inj_tail in H as [-> ->]. split; [|reflexivity].
    apply in_elt.
  - left.
    replace (l1 ++ a :: l2 ++ b :: l3 ++ [y])
      with ((l1 ++ a :: l2 ++ b :: l3) ++ [y]) in H
      by now repeat (rewrite <- app_assoc; simpl).
    apply app_inj_tail in H as [-> _]. now exists l1, l2, l3.
Qed.

Lemma nearest_step_keys nearest d :
  map fst (nearest_step nearest d) =
  match dict_get (class_of d) nearest with
  | Some _ => map fst nearest
  | None => map fst nearest ++ [class_of d]
  end.
Proof.
  unfold nearest_step, class_of.
  destruct (dict_get (class_name (object_tag d)) nearest) as [cur|] eqn:Hget.
  - destruct (Float64.lt (distance d) cur); [|reflexivity].
    now apply dict_set_keys with cur.
  - rewrite dict_set_new by exact Hget. now rewrite map_app.
Qed.

Lemma precedes_In {A} (a b : A) l : precedes a b l -> In a l /\ In b l.
Proof.
  intros (l1 & l2 & l3 & ->). split.
  - apply in_elt.
  - apply in_or_app. right. right. apply in_elt.
Qed.

(** The keys of [nearest] are the classes of the frame, once each, in the
    order in which the frame first shows them. *)
Lemma nearest_of_keys frame :
  NoDup (map fst (nearest_of frame)) /\
  (forall n, In n (map fst (nearest_of frame)) <-> In n (map class_of frame)) /\
  (forall n1 n2, precedes n1 n2 (map fst (nearest_of frame)) ->
                 first_seen n1 frame < first_seen n2 frame).
Proof.
  induction frame as [|d frame (Hnd & Hin & Hord)] using rev_ind.
  - simpl. split; [constructor|]. split; [tauto|].
    intros n1 n2 (l1 & l2 & l3 & H). now destruct l1.
  - rewrite nearest_of_snoc, nearest_step_keys. set (name := class_of d).
    assert (Hcls : forall n, In n (map class_of (frame ++ [d])) <->
                             In n (map class_of frame) \/ n = name).
    { intros n. rewrite map_app, in_app_iff. simpl. subst name.
      intuition congruence. }
    assert (Hold : forall n1 n2,
               In n1 (map class_of frame) -> In n2 (map class_of frame) ->
               first_seen n1 frame < first_seen n2 frame ->
               first_seen n1 (frame ++ [d]) < first_seen n2 (frame ++ [d])).
    { intros n1 n2 H1 H2 Hlt.
      destruct (first_seen_old n1 frame [d] H1) as [-> _].
      now destruct (first_seen_old n2 frame [d] H2) as [-> _]. }
    destruct (dict_get name (nearest_of frame)) as [cur|] eqn:Hget.
    + assert (Hname : In name (map fst (nearest_of frame))).
      { destruct (in_dec string_dec name (map fst (nearest_of frame)))
          as [H|H]; [exact H|].
        apply dict_get_None in H. congruence. }
      split; [exact Hnd|]. split.
      * intros n. rewrite Hcls, Hin. split; [tauto|].
        intros [H| ->]; [exact H|]. now apply Hin.
      * intros n1 n2 H. destruct (precedes_In _ _ _ H) as [H1 H2].
        apply Hold; [now apply Hin|now apply Hin|now apply Hord].
    + apply dict_get_None in Hget.
      split; [|split].
      * apply NoDup_app; [exact Hnd|repeat constructor; simpl; tauto|].
        intros x Hx [<-|[]]. contradiction.
      * intros n. rewrite Hcls, in_app_iff, Hin. simpl. intuition congruence.
      * intros n1 n2 H. apply precedes_snoc in H as [H|[H1 ->]].
        -- destruct (precedes_In _ _ _ H) as [H1 H2].
           apply Hold; [now apply Hin|now apply Hin|now apply Hord].
        -- apply Hin in H1.
           destruct (first_seen_old n1 frame [d] H1) as [-> Hlt].
           rewrite first_seen_new by (rewrite <- Hin; exact Hget).
           simpl. subst name. rewrite String.eqb_refl. lia.
Qed.

(** [sorted] is determined by its contract: a list in order that keeps,
    at every distance, the items of [l] in the order of [l], is the list
    the insertion above builds. *)
Lemma stable_sorted_unique (l1 l2 : list (string * float)) :
  Forall numeric_item l1 -> Forall numeric_item l2 ->
  StronglySorted not_after l1 -> StronglySorted not_after l2 ->
  (forall k, Float64.is_nan k = false ->
             filter (same_distance k) l1 = filter (same_distance k) l2) ->
  l1 = l2.
Proof.
  intros Hn1. revert l2.
  induction Hn1 as [|x t1 Hx Hn1 IH]; intros l2 Hn2 Hs1 Hs2 Hf.
  - destruct l2 as [|y t2]; [reflexivity|].
    inversion Hn2 as [|? ? Hy _]; subst.
    specialize (Hf (snd y) Hy). simpl in Hf.
    unfold same_distance in Hf at 1. rewrite lt_irrefl in Hf. discriminate.
  - assert (Hxx : same_distance (snd x) x = true)
      by (unfold same_distance; now rewrite lt_irrefl).
    destruct l2 as [|y t2].
    { specialize (Hf (snd x) Hx). simpl in Hf. rewrite Hxx in Hf.
      discriminate. }
    inversion Hn2 as [|? ? Hy Hn2']; subst.
    inversion Hs1 as [|? ? Hs1' Hx1]; subst.
    inversion Hs2 as [|? ? Hs2' Hy2]; subst.
    assert (Hyy : same_distance (snd y) y = true)
      by (unfold same_distance; now rewrite lt_irrefl).
    assert (Hxy : Float64.lt (snd x) (snd y) = false).
    { pose proof (Hf (snd x) Hx) as H. simpl in H. rewrite Hxx in H.
      assert (Hin : In x (y :: t2)).
      { apply (proj1 (filter_In (same_distance (snd x)) x (y :: t2))).
        simpl. rewrite <- H. now left. }
      destruct Hin as [<-|Hin]; [apply lt_irrefl|].
      rewrite Forall_forall in Hy2. now apply Hy2. }
    assert (Hyx : Float64.lt (snd y) (snd x) = false).
    { pose proof (Hf (snd y) Hy) as H. simpl in H. rewrite Hyy in H.
      assert (Hin : In y (x :: t1)).
      { apply (proj1 (filter_In (same_distance (snd y)) y (x :: t1))).
        simpl. rewrite H. now left. }
      destruct Hin as [<-|Hin]; [apply lt_irrefl|].
      rewrite Forall_forall in Hx1. now apply Hx1. }
    assert (x = y).
    { pose proof (Hf (snd x) Hx) as H. simpl in H. rewrite Hxx in H.
      unfold same_distance in H at 2. rewrite Hxy, Hyx in H. simpl in H.
      congruence. }
    subst y. f_equal. apply IH; auto.
    intros k Hk. specialize (Hf k Hk). simpl in Hf.
    destruct (same_distance k x); congruence.
Qed.

Lemma sorted_by_distance_unique (l l' : list (string * float)) :
  Forall numeric_item l -> Forall numeric_item l' ->
  StronglySorted not_after l' ->
  (forall k, Float64.is_nan k = false ->
             filter (same_distance k) l' = filter (same_distance k) l) ->
  l' = sorted_by_distance l.
Proof.
  intros Hl Hl' Hs Hf. apply stable_sorted_unique; auto.
  - rewrite Forall_forall in *. intros it Hit. apply Hl.
    now apply (Permutation_in _ (sorted_by_distance_perm l)).
  - now apply sorted_by_distance_sorted.
  - intros k Hk. rewrite sorted_by_distance_filter by auto. now apply Hf.
Qed.









(* ================================================================= *)
(** ** The power that is out of range *)

Module OverflowFacts.

Local Open Scope Z_scope.

Lemma digits2_pos_log2 p : Zpos (digits2_pos p) = Z.log2 (Zpos p) + 1.
Proof.
  induction p as [p IH|p IH|]; simpl digits2_pos; [| |reflexivity].
  - rewrite Pos2Z.inj_succ, IH.
    destruct p; simpl; try reflexivity; now rewrite ?Pos2Z.inj_succ; lia.
  - rewrite Pos2Z.inj_succ, IH.
    destruct p; simpl; try reflexivity; now rewrite ?Pos2Z.inj_succ; lia.
Qed.

Lemma Zdigits2_log2 m : 0 <= m -> Zdigits2 m <= Z.log2 m + 1.
Proof.
  destruct m as [|p|p]; simpl; intros H; [lia| |lia].
  rewrite digits2_pos_log2. simpl. lia.
Qed.

Lemma Zdigits2_le m n : 0 <= m <= n -> 0 < n -> Zdigits2 m <= Z.log2 n + 1.
Proof.
  intros [H0 H] Hn. pose proof (Zdigits2_log2 m H0).
  pose proof (Z.log2_le_mono m n H). lia.
Qed.

Lemma shr_1_m mrs : 0 <= shr_m mrs -> 0 <= shr_m (shr_1 mrs) <= shr_m mrs.
Proof.
  destruct mrs as [m r s]. simpl. destruct m as [|[p|p|]|p]; simpl; lia.
Qed.

Lemma iter_shr_1_m p mrs :
  0 <= shr_m mrs -> 0 <= shr_m (iter_pos shr_1 p mrs) <= shr_m mrs.
Proof.
  revert mrs. induction p as [p IH|p IH|]; intros mrs H; simpl.
  - pose proof (shr_1_m mrs H) as H1.
    pose proof (IH _ (proj1 H1)) as H2.
    pose proof (IH _ (proj1 H2)) as H3. lia.
  - pose proof (IH _ H) as H2.
    pose proof (IH _ (proj1 H2)) as H3. lia.
  - now apply shr_1_m.
Qed.

Lemma shr_record_of_loc_m m l : shr_m (shr_record_of_loc m l) = m.
Proof. now destruct l as [|[]]. Qed.

(** A shift does not enlarge the mantissa, and leaves the exponent or
    sets it to the least one its digits allow. *)
Lemma shr_fexp_bounds m e l :
  0 <= m ->
  0 <= shr_m (fst (shr_fexp 53 1024 m e l)) <= m /\
  (snd (shr_fexp 53 1024 m e l) = e \/
   snd (shr_fexp 53 1024 m e l) = Z.max (Zdigits2 m + e - 53) (-1074)).
Proof.
  intros H. unfold shr_fexp, shr, fexp, emin.
  change (3 - 1024 - 53) with (-1074).
  destruct (Z.max (Zdigits2 m + e - 53) (-1074) - e) as [|p|p] eqn:Hn;
    cbn [fst snd]; rewrite ?shr_record_of_loc_m; try (split; [lia|now left]).
  split.
  - pose proof (iter_shr_1_m p (shr_record_of_loc m l)) as Hi.
    rewrite shr_record_of_loc_m in Hi. now apply Hi.
  - right. lia.
Qed.

Lemma round_nearest_even_bounds m l :
  0 <= m -> m <= round_nearest_even m l <= m + 1.
Proof.
  intros H. destruct l as [|[]]; simpl; try lia. destruct (Z.even m); lia.
Qed.

(** Rounding a mantissa of at most 106 digits with an exponent of at most
    254 stays far below the largest double. *)
Lemma binary_round_aux_finite s m e :
  0 < m -> Z.log2 m + 1 <= 106 -> e <= 254 ->
  Float64.is_infinity (binary_round_aux 53 1024 s m e loc_Exact) = false.
Proof.
  intros Hm Hd He. unfold binary_round_aux.
  pose proof (shr_fexp_bounds m e loc_Exact (Z.lt_le_incl _ _ Hm)) as [Hm1 He1].
  destruct (shr_fexp 53 1024 m e loc_Exact) as [mrs1 e1]. cbn [fst snd] in *.
  pose proof (round_nearest_even_bounds (shr_m mrs1) (loc_of_shr_record mrs1)
                (proj1 Hm1)) as Hr.
  set (m2 := round_nearest_even (shr_m mrs1) (loc_of_shr_record mrs1)) in *.
  assert (Hm2 : 0 <= m2) by lia.
  pose proof (shr_fexp_bounds m2 e1 loc_Exact Hm2) as [Hm3 He3].
  destruct (shr_fexp 53 1024 m2 e1 loc_Exact) as [mrs3 e3]. cbn [fst snd] in *.
  assert (Hd1 : Zdigits2 m <= 106).
  { pose proof (Zdigits2_log2 m (Z.lt_le_incl _ _ Hm)). lia. }
  assert (Hd2 : Zdigits2 m2 <= 107).
  { assert (H : Zdigits2 m2 <= Z.log2 (m + 1) + 1)
      by (apply Zdigits2_le; lia).
    pose proof (Z.log2_succ_le m). unfold Z.succ in *. lia. }
  assert (He3' : e3 <= 971) by lia.
  destruct (shr_m mrs3); try reflexivity.
  change (1024 - 53) with 971.
  destruct (Z.leb_spec e3 971); [reflexivity|lia].
Qed.

Lemma pow2_below_2pow128 x :
  below_2pow128 x = true -> Float64.pow2_overflows x = false.
Proof.
  unfold Float64.pow2_overflows.
  destruct x as [s|s| |s m e]; try reflexivity.
  unfold below_2pow128. intros H. apply andb_true_iff in H as [Hd He].
  change (Float64.is_infinity
            (binary_round_aux 53 1024 (xorb s s) (Zpos (m * m)) (e + e)
                              loc_Exact) = false).
  apply Z.leb_le in Hd, He. rewrite digits2_pos_log2 in Hd, He.
  pose proof (Z.log2_nonneg (Zpos m)) as Hl.
  apply binary_round_aux_finite; [reflexivity| |lia].
  pose proof (Z.log2_mul_above (Zpos m) (Zpos m)) as Hmul.
  change (Zpos (m * m)) with (Zpos m * Zpos m). lia.
Qed.

End OverflowFacts.

Lemma single_precision_in_range d :
  single_precision_range d = true -> detection_in_range d = true.
Proof.
  unfold single_precision_range, detection_in_range.
  destruct (coords d) as [[x y] z]. intros H.
  apply andb_true_iff in H as [H Hz]. apply andb_true_iff in H as [Hx Hy].
  now rewrite !OverflowFacts.pow2_below_2pow128.
Qed.

Lemma checked_distance_in_range d :
  detection_in_range d = true -> checked_distance d = Ok (distance d).
Proof.
  unfold detection_in_range, checked_distance, distance, power2.
  destruct (coords d) as [[x y] z]. intros H.
  apply andb_true_iff in H as [H Hz]. apply andb_true_iff in H as [Hx Hy].
  apply negb_true_iff in Hx, Hy, Hz. now rewrite Hx, Hy, Hz.
Qed.

Lemma checked_distance_out_of_range d :
  detection_in_range d = false -> checked_distance d = Raise out_of_range.
Proof.
  unfold detection_in_range, checked_distance, power2.
  destruct (coords d) as [[x y] z].
  destruct (Float64.pow2_overflows x), (Float64.pow2_overflows y),
    (Float64.pow2_overflows z); simpl; intros H;
    try reflexivity; discriminate.
Qed.

Lemma in_range_cons d frame :
  in_range (d :: frame) <-> detection_in_range d = true /\ in_range frame.
Proof.
  unfold in_range. split.
  - intros H. split; [apply H; now left|]. intros d' Hd'. apply H. now right.
  - intros [Hd H] d' [<-|Hd']; auto.
Qed.

Lemma frame_in_range_iff frame : frame_in_range frame = true <-> in_range frame.
Proof. unfold frame_in_range, in_range. apply forallb_forall. Qed.

Lemma in_range_dec frame : in_range frame \/ ~ in_range frame.
Proof.
  destruct (frame_in_range frame) eqn:H.
  - left. now apply frame_in_range_iff.
  - right. intros Hr. apply frame_in_range_iff in Hr. congruence.
Qed.

(** When no power is out of range the loop ends with the dictionary
    [nearest_of] describes. *)
Lemma nearest_loop_in_range frame acc :
  in_range frame ->
  nearest_loop frame acc = Ok (fold_left nearest_step frame acc).
Proof.
  revert acc. induction frame as [|d frame IH]; intros acc H; simpl;
    [reflexivity|].
  apply in_range_cons in H as [Hd H].
  rewrite (checked_distance_in_range d Hd). now rewrite (IH _ H).
Qed.

Lemma nearest_loop_out_of_range frame acc :
  ~ in_range frame -> nearest_loop frame acc = Raise out_of_range.
Proof.
  revert acc. induction frame as [|d frame IH]; intros acc H; simpl.
  - exfalso. apply H. intros d [].
  - destruct (detection_in_range d) eqn:Hd.
    + rewrite (checked_distance_in_range d Hd). apply IH.
      intros Hr. apply H. now apply in_range_cons.
    + now rewrite (checked_distance_out_of_range d Hd).
Qed.


(* ================================================================= *)
(** ** The sensor callback: rows written *)

(** A call on a frame in range ends normally, with the rows and the line
    of the dictionary [nearest_of frame]. *)
Lemma semantic_lidar_data_in_range clk frame st :
  in_range frame ->
  semantic_lidar_data clk frame st
  = (Ok tt,
     {| raw_lidar_csv :=
          raw_lidar_csv st ++ map (raw_row (clk (clock_reads st))) frame;
        detection_log_csv :=
          detection_log_csv st
            ++ [[CStr (clk (clock_reads st));
                 CStr (detections_summary_of (nearest_of frame))]];
        stdout :=
          match nearest_of frame with
          | [] => stdout st
          | _ :: _ =>
              stdout st ++
                [("Detected (name : distance m) -> "
                    ++ detections_summary_of (nearest_of frame))%string]
          end;
        clock_reads := S (clock_reads st) |}).
Proof.
  intros H. unfold semantic_lidar_data, nearest_of.
  now rewrite (nearest_loop_in_range frame [] H).
Qed.

(** A call on any other frame raises after the raw rows are written. *)
Lemma semantic_lidar_data_out_of_range clk frame st :
  ~ in_range frame ->
  semantic_lidar_data clk frame st
  = (Raise out_of_range,
     {| raw_lidar_csv :=
          raw_lidar_csv st ++ map (raw_row (clk (clock_reads st))) frame;
        detection_log_csv := detection_log_csv st;
        stdout := stdout st;
        clock_reads := S (clock_reads st) |}).
Proof.
  intros H. unfold semantic_lidar_data.
  now rewrite (nearest_loop_out_of_range frame [] H).
Qed.

Lemma raw_row_timestamp ts d : hd_error (raw_row ts d) = Some (CStr ts).
Proof. unfold raw_row. now destruct (coords d) as [[x y] z]. Qed.




(** C10: one call reads the clock once, and the reading is the first cell
    of every row the call writes: of every raw row and of the summary row,
    which is the one row added to the summary file when the call ends
    normally, as it does on every frame in range (a call that raises adds
    none). *)
Theorem semantic_lidar_data_one_timestamp
    (clk : nat -> string) (frame : list detection) (st : io_state) :
  clock_reads (snd (semantic_lidar_data clk frame st)) = S (clock_reads st) /\
  exists rows summary_rows,
    raw_lidar_csv (snd (semantic_lidar_data clk frame st))
    = raw_lidar_csv st ++ rows /\
    List.length rows = List.length frame /\
    Forall (fun r => hd_error r = Some (CStr (clk (clock_reads st)))) rows /\
    detection_log_csv (snd (semantic_lidar_data clk frame st))
    = detection_log_csv st ++ summary_rows /\
    Forall (fun r => hd_error r = Some (CStr (clk (clock_reads st))))
           summary_rows /\
    List.length summary_rows
    = match fst (semantic_lidar_data clk frame st) with
      | Ok _ => 1
      | Raise _ => 0
      end /\
    (fst (semantic_lidar_data clk frame st) = Ok tt <-> in_range frame).
Proof.
  assert (Hts : Forall (fun r => hd_error r = Some (CStr (clk (clock_reads st))))
                       (map (raw_row (clk (clock_reads st))) frame)).
  { apply Forall_forall. intros r Hr. apply in_map_iff in Hr as (d & <- & _).
    apply raw_row_timestamp. }
  destruct (in_range_dec frame) as [H|H].
  - rewrite (semantic_lidar_data_in_range clk frame st H). cbn [fst snd].
    split; [reflexivity|].
    exists (map (raw_row (clk (clock_reads st))) frame).
    eexists. split; [reflexivity|]. split; [apply length_map|].
    split; [exact Hts|]. split; [reflexivity|].
    split; [now repeat constructor|]. split; [reflexivity|]. tauto.
  - rewrite (semantic_lidar_data_out_of_range clk frame st H). cbn [fst snd].
    split; [reflexivity|].
    exists (map (raw_row (clk (clock_reads st))) frame), [].
    split; [reflexivity|]. split; [apply length_map|].
    split; [exact Hts|]. split; [now rewrite app_nil_r|].
    split; [constructor|]. split; [reflexivity|].
    split; [discriminate|contradiction].
Qed.

(* ================================================================= *)
(** ** The summary *)


(* ================================================================= *)
(** ** Rendering with two decimals *)


Lemma string_append_length (a b : string) :
  String.length (a ++ b)%string = String.length a + String.length b.
Proof. induction a as [|x a IH]; simpl; [reflexivity|now rewrite IH]. Qed.

Lemma string_append_cancel_r (a b c : string) :
  (a ++ c = b ++ c)%string -> a = b.
Proof.
  revert b. induction a as [|x a IH]; intros [|y b] H; simpl in H.
  - reflexivity.
  - apply (f_equal String.length) in H. simpl in H.
    rewrite string_append_length in H. lia.
  - apply (f_equal String.length) in H. simpl in H.
    rewrite string_append_length in H. lia.
  - injection H as -> H. f_equal. now apply IH.
Qed.

Lemma str_N_inj (n n' : N) : Float64.str_N n = Float64.str_N n' -> n = n'.
Proof.
  unfold Float64.str_N. intros H.
  apply DecimalN.Unsigned.to_uint_inj.
  apply (f_equal NilEmpty.uint_of_string) in H.
  rewrite !NilEmpty.usu in H. now injection H.
Qed.



(** The hundredths printed for [m * 2^e] are the nearest ones: exact for
    [e >= 0], within half a hundredth otherwise. *)
Lemma hundredths_nearest (m : positive) (e : Z) :
  match e with
  | Zneg p =>
      (2 * Z.abs (Zpos m * 100 - Z.of_N (Float64.hundredths m e) * 2 ^ Zpos p)
       <= 2 ^ Zpos p)%Z
  | _ => Z.of_N (Float64.hundredths m e) = (Zpos m * 100 * 2 ^ e)%Z
  end.
Proof.
  destruct e as [|p|p]; unfold Float64.hundredths.
  - simpl. lia.
  - rewrite N.shiftl_mul_pow2, N2Z.inj_mul, N2Z.inj_pow. reflexivity.
  - set (n := (N.pos m * 100)%N). set (d := N.shiftl 1 (N.pos p)).
    assert (Hd : Z.of_N d = (2 ^ Z.pos p)%Z).
    { subst d. rewrite N.shiftl_mul_pow2, N.mul_1_l, N2Z.inj_pow.
      reflexivity. }
    assert (Hdpos : (0 < Z.of_N d)%Z) by (rewrite Hd; lia).
    assert (Hn : Z.of_N n = (Z.pos m * 100)%Z) by (subst n; lia).
    rewrite <- Hd, <- Hn.
    assert (Hdiv : n = (d * (n / d) + n mod d)%N)
      by (apply N.div_mod; lia).
    assert (Hmod : (n mod d < d)%N) by (apply N.mod_lt; lia).
    apply (f_equal Z.of_N) in Hdiv.
    rewrite N2Z.inj_add, N2Z.inj_mul in Hdiv.
    generalize dependent (n / d)%N. generalize dependent (n mod d)%N.
    intros r Hmod q Hdiv.
    destruct (N.compare_spec (2 * r) d) as [Heq|Hlt|Hgt];
      [destruct (N.even q)| |]; rewrite ?N2Z.inj_succ; lia.
Qed.

(** A detection whose coordinates are numbers is at a distance that is
    a number: no frame of such detections is left out by
    [numeric_frame]. *)
Lemma distance_numeric (d : detection) :
  (let '(x, y, z) := coords d in
   Float64.is_nan x = false /\ Float64.is_nan y = false /\
   Float64.is_nan z = false) ->
  Float64.is_nan (distance d) = false.
Proof.
  unfold distance. destruct (coords d) as [[x y] z]. intros (Hx & Hy & Hz).
  apply nonneg_not_nan, sqrt_nonneg, add_nonneg;
    [apply add_nonneg|]; now apply pow2_nonneg.
Qed.





(* ================================================================= *)
(** ** Tags outside the taxonomy *)

Lemma list_index_None v l : list_index v l = None <-> ~ In v l.
Proof.
  induction l as [|x l IH]; simpl; [tauto|].
  destruct (N.eqb_spec x v) as [->|Hne].
  - split; [discriminate|]. intros H. exfalso. apply H. now left.
  - destruct (list_index v l); simpl in *.
    + split; [discriminate|]. intros H. exfalso.
      apply H. right.
      destruct (in_dec N.eq_dec v l) as [Hin|Hin]; [exact Hin|].
      apply IH in Hin. discriminate.
    + split; [|reflexivity]. intros _ [H|H]; [contradiction|].
      now apply (proj1 IH).
Qed.

Lemma list_index_Some v l i :
  list_index v l = Some i -> i < List.length l.
Proof.
  revert i. induction l as [|x l IH]; simpl; [discriminate|].
  destruct (N.eqb x v); intros i.
  - intros [= <-]. lia.
  - destruct (list_index v l) as [j|]; simpl; [|discriminate].
    intros [= <-]. specialize (IH j eq_refl). lia.
Qed.

Lemma unknown_name_not_registered (s : string) :
  ~ In ("Unknown(" ++ s ++ ")")%string key_list.
Proof.
  unfold key_list, object_id. simpl. intuition discriminate.
Qed.

(** The names of two different tags differ when one is outside the
    taxonomy. *)
Lemma unknown_name_identifies_tag (tag tag' : N) :
  ~ In tag value_list -> class_name tag' = class_name tag -> tag' = tag.
Proof.
  intros Hun. apply list_index_None in Hun.
  unfold class_name at 2. rewrite Hun. unfold class_name.
  destruct (list_index tag' value_list) as [i|] eqn:Hi.
  - intros H. exfalso.
    apply (unknown_name_not_registered (Float64.str_N tag)).
    rewrite <- H. apply nth_In.
    apply list_index_Some in Hi. unfold key_list, value_list in *.
    now rewrite length_map in *.
  - intros H. injection H as H.
    apply string_append_cancel_r in H. now apply str_N_inj.
Qed.



(** The empty frame, on the files as created: no raw row, one summary
    row with the empty summary. *)
Example empty_frame_rows (clk : nat -> string) :
  raw_lidar_csv (snd (semantic_lidar_data clk [] initial_io))
  = raw_lidar_csv initial_io /\
  detection_log_csv (snd (semantic_lidar_data clk [] initial_io))
  = [[CStr "timestamp"; CStr "detections_summary"];
     [CStr (clk 0); CStr ""]].
Proof. split; reflexivity. Qed.

(** The scenario of C3 with the double nearest to 3.1 in place of the
    single-precision one. *)
Example summary_with_double_coordinates :
  detections_summary_of
    (nearest_of
       [ DetFlat (Float64.dyadic 25 (-1)) f0 f0 7;
         DetFlat (S754_finite false 6980579422424269 (-51)) f0 f0 7;
         DetFlat (Float64.dyadic 9 0) f0 f0 10 ])
  = "Roads:3.10, Vehicles:9.00".
Proof. vm_compute. reflexivity. Qed.

Example summary_with_unknown_tag :
  detections_summary_of (nearest_of sample_frame_unknown)
  = "Unknown(23):2.00, Roads:3.10, Vehicles:9.00".
Proof. vm_compute. reflexivity. Qed.

(* ================================================================= *)
(** ** The state monad *)

Lemma add_events_nil st : add_events [] st = st.
Proof. destruct st. unfold add_events. simpl. now rewrite app_nil_r. Qed.

Lemma add_events_app evs1 evs2 st :
  add_events evs2 (add_events evs1 st) = add_events (evs1 ++ evs2) st.
Proof. unfold add_events. simpl. now rewrite app_assoc. Qed.

Lemma emit_spec ev st : emit ev st = (Ok tt, add_events [ev] st).
Proof. reflexivity. Qed.

Lemma rng_only_refl st : rng_only st st.
Proof. now repeat split. Qed.

Lemma rng_only_trans st1 st2 st3 :
  rng_only st1 st2 -> rng_only st2 st3 -> rng_only st1 st3.
Proof.
  intros (H1 & H2 & H3) (H4 & H5 & H6). repeat split; congruence.
Qed.

(* ================================================================= *)
(** ** [random.choice] and [random.shuffle] *)

Section RandomFacts.

Variable env : environment.

Lemma choice_ok {A} (seq : list A) st :
  seq <> [] ->
  exists a st',
    choice env seq st = (Ok a, st') /\ In a seq /\ rng_only st st'.
Proof.
  intros Hne. destruct seq as [|x seq]; [contradiction|].
  unfold choice, bind, randbelow.
  set (i := Nat.modulo _ _).
  assert (Hi : i < List.length (x :: seq))
    by (apply Nat.mod_upper_bound; discriminate).
  destruct (nth_error (x :: seq) i) as [a|] eqn:Hnth.
  - exists a. eexists. split; [reflexivity|]. split.
    + now apply nth_error_In in Hnth.
    + now repeat split.
  - apply nth_error_None in Hnth. lia.
Qed.

Lemma list_set_perm {A} (l : list A) i a v :
  nth_error l i = Some a -> Permutation (v :: l) (a :: list_set i v l).
Proof.
  revert i. induction l as [|x l IH]; intros [|i]; simpl; try discriminate.
  - intros [= ->]. apply perm_swap.
  - intros H. transitivity (x :: v :: l); [apply perm_swap|].
    transitivity (x :: a :: list_set i v l); [|apply perm_swap].
    apply perm_skip. now apply IH.
Qed.

Lemma list_set_nth {A} (l : list A) i j b :
  j < List.length l ->
  nth_error l j = Some b \/ i = j ->
  nth_error (list_set i b l) j = Some b.
Proof.
  revert i j. induction l as [|x l IH]; intros i j; simpl; [lia|].
  destruct i as [|i], j as [|j]; simpl; intros Hlt [H|H];
    try reflexivity; try discriminate; try assumption.
  - apply IH; [lia|now left].
  - apply IH; [lia|right; congruence].
Qed.

Lemma swap_perm {A} i j (x : list A) : Permutation x (swap i j x).
Proof.
  unfold swap.
  destruct (nth_error x i) as [a|] eqn:Hi; [|reflexivity].
  destruct (nth_error x j) as [b|] eqn:Hj; [|reflexivity].
  apply Permutation_cons_inv with b.
  rewrite (list_set_perm x i a b Hi).
  apply list_set_perm.
  destruct (Nat.eq_dec i j) as [->|Hne].
  - assert (a = b) by congruence. subst b.
    apply list_set_nth; [|now right].
    apply nth_error_Some. congruence.
  - rewrite <- Hj. clear Hi Hj a.
    revert i j Hne. induction x as [|y x IH]; intros [|i] [|j] Hne;
      simpl; try reflexivity; try lia.
    apply IH. congruence.
Qed.

Lemma shuffle_from_ok {A} i (x : list A) st :
  exists x' st',
    shuffle_from env i x st = (Ok x', st') /\
    Permutation x x' /\ rng_only st st'.
Proof.
  revert x st. induction i as [|i IH]; intros x st.
  - exists x, st. now repeat split.
  - simpl. unfold bind, randbelow. set (st1 := {| actor_list := _ |}).
    set (j := Nat.modulo _ _).
    destruct (IH (swap (S i) j x) st1) as (x' & st' & Heq & Hp & Hr).
    exists x', st'. split; [exact Heq|]. split.
    + now rewrite <- Hp, <- swap_perm.
    + apply rng_only_trans with st1; [now repeat split|exact Hr].
Qed.

Lemma shuffle_ok {A} (x : list A) st :
  exists x' st',
    shuffle env x st = (Ok x', st') /\ Permutation x x' /\ rng_only st st'.
Proof. apply shuffle_from_ok. Qed.

End RandomFacts.

(* ================================================================= *)
(** ** The fleet provisioner *)

Section FleetFacts.

Variable env : environment.

Lemma collect_responses_spec responses spawned_ids st :
  collect_responses responses spawned_ids st
  = (Ok (spawned_ids ++ succeeded responses),
     add_events (failed responses) st).
Proof.
  revert spawned_ids st.
  induction responses as [|res rest IH]; intros spawned_ids st; simpl.
  - unfold ret, succeeded, failed. simpl.
    now rewrite app_nil_r, add_events_nil.
  - unfold succeeded, failed in *. simpl.
    destruct (String.eqb (res_error res) ""); simpl.
    + rewrite IH, <- app_assoc. reflexivity.
    + unfold bind. rewrite emit_spec, IH, add_events_app. reflexivity.
Qed.

Lemma submit_batch_spec batch st :
  submit_batch env batch st
  = (Ok (succeeded (batch_sync_result env batch)),
     add_events
       (EvApplyBatchSync batch :: failed (batch_sync_result env batch)) st).
Proof.
  unfold submit_batch, bind. rewrite emit_spec, collect_responses_spec.
  now rewrite add_events_app.
Qed.

Lemma partition_lengths responses :
  List.length (succeeded responses) + List.length (failed responses)
  = List.length responses.
Proof.
  unfold succeeded, failed. rewrite !length_map.
  induction responses as [|res rest IH]; simpl; [reflexivity|].
  destruct (String.eqb (res_error res) ""); simpl; lia.
Qed.

Lemma choose_attribute_ok recommended st :
  recommended <> Some [] ->
  exists v st',
    choose_attribute env recommended st = (Ok v, st') /\ rng_only st st'.
Proof.
  intros Hne. destruct recommended as [values|]; simpl.
  - destruct (choice_ok env values st) as (a & st' & Heq & _ & Hr).
    { intros ->. now apply Hne. }
    exists (Some a), st'. unfold bind. now rewrite Heq.
  - exists None, st. split; [reflexivity|apply rng_only_refl].
Qed.

(** The loop turns the first [n_spawn - n] spawn points left into one
    request each, in order. *)
Lemma build_batch_ok blueprints n_spawn :
  blueprints <> [] -> Forall blueprint_ok blueprints ->
  forall spawn_points n batch st,
  exists reqs st',
    build_batch env blueprints n_spawn n spawn_points batch st
    = (Ok (batch ++ map SpawnActor reqs), st') /\
    map req_transform reqs
    = firstn (Z.to_nat (n_spawn - Z.of_nat n)) spawn_points /\
    Forall (fun r => req_role_name r = "autopilot" /\
                     req_autopilot_port r = tm_port env /\
                     exists bp, In bp blueprints /\
                                req_blueprint r = bp_id bp) reqs /\
    rng_only st st'.
Proof.
  intros Hne Hok.
  induction spawn_points as [|transform rest IH]; intros n batch st.
  - exists [], st. simpl. rewrite app_nil_r, firstn_nil.
    repeat split; auto.
  - simpl. destruct (Z.leb_spec n_spawn (Z.of_nat n)) as [Hle|Hgt].
    + exists [], st. simpl. rewrite app_nil_r.
      replace (Z.to_nat (n_spawn - Z.of_nat n)) with 0 by lia.
      repeat split; auto.
    + destruct (choice_ok env blueprints st Hne)
        as (bp & st1 & Hbp & Hin & Hr1).
      assert (Hbpok : blueprint_ok bp)
        by (rewrite Forall_forall in Hok; now apply Hok).
      destruct Hbpok as [Hcol Hdrv].
      destruct (choose_attribute_ok (bp_color bp) st1 Hcol)
        as (color & st2 & Hcolor & Hr2).
      destruct (choose_attribute_ok (bp_driver_id bp) st2 Hdrv)
        as (driver & st3 & Hdriver & Hr3).
      unfold bind at 1. rewrite Hbp.
      unfold bind at 1. rewrite Hcolor.
      unfold bind at 1. rewrite Hdriver.
      match goal with
      | |- context [build_batch _ _ _ _ _ (batch ++ [SpawnActor ?r])] =>
          set (req := r)
      end.
      destruct (IH (S n) (batch ++ [SpawnActor req]) st3)
        as (reqs & st' & Heq & Htr & Hall & Hr).
      exists (req :: reqs), st'. split; [|split; [|split]].
      * rewrite Heq, <- app_assoc. reflexivity.
      * replace (Z.to_nat (n_spawn - Z.of_nat n))
          with (S (Z.to_nat (n_spawn - Z.of_nat (S n)))) by lia.
        simpl. now rewrite Htr.
      * constructor; [|exact Hall].
        subst req. simpl. repeat split. now exists bp.
      * eauto using rng_only_trans.
Qed.

Lemma firstn_sub_permutation {A} n (l l' : list A) :
  Permutation l l' ->
  exists unused, Permutation (firstn n l' ++ unused) l.
Proof.
  intros Hp. exists (skipn n l'). now rewrite firstn_skipn.
Qed.

Lemma NoDup_firstn {A} n (l : list A) : NoDup l -> NoDup (firstn n l).
Proof.
  intros Hnd. rewrite <- (firstn_skipn n l) in Hnd.
  now apply NoDup_app_remove_r in Hnd.
Qed.

(** With a blueprint to choose from and a place to spawn at, the
    provisioner returns: it submits one batch, of [min number L]
    requests placed at the first spawn points of the shuffled list. *)
Lemma spawn_vehicles_batch_ok filter number st :
  blueprint_filter env filter <> [] ->
  Forall blueprint_ok (blueprint_filter env filter) ->
  map_spawn_points env <> [] ->
  exists reqs shuffled st1,
    spawn_vehicles_batch env filter number st
    = (Ok (succeeded (batch_sync_result env (map SpawnActor reqs))),
       add_events
         (EvApplyBatchSync (map SpawnActor reqs)
            :: failed (batch_sync_result env (map SpawnActor reqs))) st1) /\
    rng_only st st1 /\
    Permutation (map_spawn_points env) shuffled /\
    map req_transform reqs
    = firstn (Z.to_nat (Z.min number
                          (Z.of_nat (List.length (map_spawn_points env)))))
             shuffled /\
    Forall (fun r => req_role_name r = "autopilot" /\
                     req_autopilot_port r = tm_port env /\
                     exists bp, In bp (blueprint_filter env filter) /\
                                req_blueprint r = bp_id bp) reqs.
Proof.
  intros Hbps Hok Hpts. unfold spawn_vehicles_batch.
  destruct (blueprint_filter env filter) as [|b bps] eqn:Hfilter;
    [contradiction|].
  destruct (shuffle_ok env (b :: bps) st) as (bps' & st1 & Hsh1 & Hp1 & Hr1).
  unfold bind at 1. rewrite Hsh1.
  destruct (map_spawn_points env) as [|pt pts] eqn:Hmap; [contradiction|].
  cbn [List.length Nat.eqb].
  destruct (shuffle_ok env (pt :: pts) st1) as (pts' & st2 & Hsh2 & Hp2 & Hr2).
  unfold bind at 1. rewrite Hsh2.
  destruct (build_batch_ok bps'
              (Z.min number (Z.of_nat (S (List.length pts))))) with
    (spawn_points := pts') (n := 0) (batch := @nil command) (st := st2)
    as (reqs & st3 & Hb & Htr & Hall & Hr3).
  { intros ->. apply Permutation_sym, Permutation_nil in Hp1. discriminate. }
  { rewrite Forall_forall in *. intros bp Hbp. apply Hok.
    now apply (Permutation_in _ (Permutation_sym Hp1)). }
  unfold bind. rewrite Hb. simpl app. rewrite submit_batch_spec.
  exists reqs, pts', st3. split; [reflexivity|]. split; [|split; [|split]].
  - eauto using rng_only_trans.
  - exact Hp2.
  - rewrite Htr. f_equal. simpl Z.of_nat. lia.
  - rewrite Forall_forall in *. intros r Hr.
    destruct (Hall r Hr) as (H1 & H2 & bp & Hbp & H3).
    repeat split; auto. exists bp. split; [|exact H3].
    now apply (Permutation_in _ (Permutation_sym Hp1)).
Qed.

End FleetFacts.

(** C6, as the code has it: whatever the batch submitted, and so for an
    empty one, when the simulator answers every request the responses are
    split in two: the actor ids of those without error are returned, a
    warning is logged for each of the others, and ids and warnings together
    are as many as the requests.  What the caller receives is the list of
    ids alone: never more ids than requests, and as many only when no
    response carries an error. *)
Theorem submit_batch_partitions
    (env : environment) (batch : list command) (st : proc_state) :
  List.length (batch_sync_result env batch) = List.length batch ->
  exists ids warnings,
    submit_batch env batch st
    = (Ok ids, add_events (EvApplyBatchSync batch :: warnings) st) /\
    ids = succeeded (batch_sync_result env batch) /\
    warnings = failed (batch_sync_result env batch) /\
    List.length ids + List.length warnings = List.length batch /\
    List.length ids <= List.length batch /\
    (List.length ids = List.length batch <-> warnings = []).
Proof.
  intros Hlen. eexists _, _. split; [apply submit_batch_spec|].
  split; [reflexivity|]. split; [reflexivity|].
  pose proof (partition_lengths (batch_sync_result env batch)) as Hp.
  rewrite Hlen in Hp. split; [exact Hp|]. split; [lia|].
  split.
  - intros H. apply length_zero_iff_nil. lia.
  - intros H. rewrite H in Hp. simpl in Hp. lia.
Qed.

Lemma submit_batch_partitions_witness :
  List.length
    (batch_sync_result (sample_env sample_blueprints three_points) sample_batch)
  = List.length sample_batch /\
  exists ids warnings,
    submit_batch (sample_env sample_blueprints three_points) sample_batch
                 initial_proc
    = (Ok ids,
       add_events (EvApplyBatchSync sample_batch :: warnings) initial_proc) /\
    List.length ids + List.length warnings = 3.
Proof.
  split; [reflexivity|].
  destruct (submit_batch_partitions
              (sample_env sample_blueprints three_points) sample_batch
              initial_proc eq_refl) as (ids & warnings & H & _ & _ & Hlen & _).
  now exists ids, warnings.
Defined.

(** Three requests, of which the simulator rejects the second: the caller
    receives two ids, fewer than the requests submitted; the third outcome
    is a warning in the log. *)
Lemma fewer_ids_than_requests :
  List.length sample_batch = 3 /\
  List.length
    (batch_sync_result (sample_env sample_blueprints three_points) sample_batch)
  = 3 /\
  submit_batch (sample_env sample_blueprints three_points) sample_batch
               initial_proc
  = (Ok [100; 102]%N,
     add_events
       [EvApplyBatchSync sample_batch;
        EvWarning
          "Spawn vehicle error: Spawn failed because of collision at spawn position"]
       initial_proc) /\
  fst (spawn_vehicles_batch (sample_env sample_blueprints three_points)
                            "vehicle.*" 5 initial_proc)
  = Ok [100; 102]%N.
Proof. vm_compute. repeat split. Qed.

(** C7, as the code has it: with a blueprint to choose from, a value to
    draw for every attribute drawn, and at least one spawn point, the
    provisioner returns without error after submitting one batch of
    [min number L] requests ([L] spawn points; none when [number <= 0]);
    the requests are placed at different entries of the list of spawn
    points, so at different places when the list has no repetition; the
    only warnings logged are those of the responses. *)
Theorem spawn_vehicles_batch_caps
    (env : environment) (filter : string) (number : Z) (st : proc_state) :
  blueprint_filter env filter <> [] ->
  Forall blueprint_ok (blueprint_filter env filter) ->
  map_spawn_points env <> [] ->
  exists reqs st',
    spawn_vehicles_batch env filter number st
    = (Ok (succeeded (batch_sync_result env (map SpawnActor reqs))), st') /\
    trace st'
    = trace st ++ EvApplyBatchSync (map SpawnActor reqs)
                  :: failed (batch_sync_result env (map SpawnActor reqs)) /\
    List.length reqs
    = Z.to_nat (Z.min number (Z.of_nat (List.length (map_spawn_points env)))) /\
    (exists unused,
        Permutation (map req_transform reqs ++ unused) (map_spawn_points env)) /\
    (NoDup (map_spawn_points env) -> NoDup (map req_transform reqs)).
Proof.
  intros Hbps Hok Hpts.
  destruct (spawn_vehicles_batch_ok env filter number st Hbps Hok Hpts)
    as (reqs & shuffled & st1 & Heq & (_ & _ & Htrace) & Hperm & Htr & _).
  exists reqs. eexists. split; [exact Heq|]. split; [|split; [|split]].
  - simpl. now rewrite Htrace.
  - rewrite <- (length_map req_transform), Htr, length_firstn.
    rewrite <- (Permutation_length Hperm). lia.
  - rewrite Htr. now apply firstn_sub_permutation.
  - intros Hnd. rewrite Htr. apply NoDup_firstn.
    now apply (Permutation_NoDup Hperm).
Qed.

Lemma spawn_vehicles_batch_caps_witness :
  blueprint_filter (sample_env sample_blueprints three_points) "vehicle.*"
  <> [] /\
  Forall blueprint_ok
    (blueprint_filter (sample_env sample_blueprints three_points) "vehicle.*") /\
  map_spawn_points (sample_env sample_blueprints three_points) <> [] /\
  exists reqs st',
    spawn_vehicles_batch (sample_env sample_blueprints three_points)
                         "vehicle.*" 5 initial_proc
    = (Ok (succeeded (sample_responses 0 (map SpawnActor reqs))), st') /\
    List.length reqs = 3.
Proof.
  assert (H1 : blueprint_filter (sample_env sample_blueprints three_points)
                                "vehicle.*" <> []) by discriminate.
  assert (H2 : Forall blueprint_ok
                 (blueprint_filter (sample_env sample_blueprints three_points)
                                   "vehicle.*")).
  { repeat constructor; discriminate. }
  assert (H3 : map_spawn_points (sample_env sample_blueprints three_points)
               <> []) by discriminate.
  split; [exact H1|]. split; [exact H2|]. split; [exact H3|].
  destruct (spawn_vehicles_batch_caps
              (sample_env sample_blueprints three_points) "vehicle.*" 5
              initial_proc H1 H2 H3) as (reqs & st' & Heq & _ & Hlen & _).
  exists reqs, st'. split; [exact Heq|exact Hlen].
Defined.

(** Five vehicles asked for on a map without spawn point: more than there
    are places, and the provisioner raises. *)
Lemma no_spawn_point_is_an_error :
  (Z.of_nat
     (List.length (map_spawn_points (sample_env sample_blueprints []))) < 5)%Z /\
  fst (spawn_vehicles_batch (sample_env sample_blueprints []) "vehicle.*" 5
                            initial_proc)
  = Raise (RuntimeError "No spawn points in the map") /\
  trace (snd (spawn_vehicles_batch (sample_env sample_blueprints [])
                                   "vehicle.*" 5 initial_proc)) = [].
Proof. repeat split. Qed.

(* ================================================================= *)
(** ** Teardown *)

Section TeardownFacts.

Variable env : environment.

Lemma try_pass_destroy a st :
  try_pass (destroy env a) st = (Ok tt, add_events [EvDestroy a] st).
Proof.
  unfold try_pass, destroy, bind. rewrite emit_spec.
  now destruct (destroy_error env a).
Qed.

Lemma try_pass_apply_batch batch st :
  try_pass (apply_batch env batch) st
  = (Ok tt, add_events [EvApplyBatch batch] st).
Proof.
  unfold try_pass, apply_batch, bind. rewrite emit_spec.
  now destruct (apply_batch_error env batch).
Qed.

Lemma destroy_each_spec actors st :
  destroy_each env actors st = (Ok tt, add_events (map EvDestroy actors) st).
Proof.
  revert st. induction actors as [|a actors IH]; intros st; simpl.
  - unfold ret. now rewrite add_events_nil.
  - unfold bind. rewrite try_pass_destroy, IH, add_events_app. reflexivity.
Qed.

Lemma teardown_spec st :
  teardown env st = (Ok tt, add_events (teardown_events st) st).
Proof.
  unfold teardown, bind. rewrite try_pass_apply_batch.
  simpl actor_list. rewrite destroy_each_spec, add_events_app. reflexivity.
Qed.

Lemma destroy_attempts_app evs1 evs2 :
  destroy_attempts (evs1 ++ evs2)
  = destroy_attempts evs1 ++ destroy_attempts evs2.
Proof.
  induction evs1 as [|ev evs1 IH]; simpl; [reflexivity|].
  destruct ev; simpl; rewrite IH; try reflexivity.
  now rewrite app_assoc.
Qed.

Lemma destroy_attempts_teardown st :
  destroy_attempts (teardown_events st)
  = spawned_vehicle_ids st ++ actor_list st.
Proof.
  unfold teardown_events. simpl. f_equal.
  - induction (spawned_vehicle_ids st) as [|a l IH]; simpl; congruence.
  - induction (actor_list st) as [|a l IH]; simpl; congruence.
Qed.

Lemma teardown_events_no_session st :
  existsb session_event (teardown_events st) = false.
Proof.
  unfold teardown_events. simpl.
  induction (actor_list st) as [|a l IH]; simpl; auto.
Qed.

End TeardownFacts.

(** C8: whichever destroy calls fail, the teardown first asks for the
    destruction of all the fleet's vehicles in one batch, then for that of
    every tracked actor, one call each, in the order of [actor_list]; no
    error leaves it. *)
Theorem teardown_attempts_every_destroy
    (env : environment) (st : proc_state) :
  teardown env st
  = (Ok tt,
     add_events
       (EvApplyBatch (map DestroyActor (spawned_vehicle_ids st))
          :: map EvDestroy (actor_list st)) st) /\
  (forall a, In a (spawned_vehicle_ids st ++ actor_list st) ->
             In a (destroy_attempts (trace (snd (teardown env st))))).
Proof.
  split; [apply teardown_spec|].
  intros a Ha. rewrite teardown_spec. simpl snd. unfold add_events.
  simpl trace. rewrite destroy_attempts_app, destroy_attempts_teardown.
  apply in_or_app. now right.
Qed.

(** The hero cannot be destroyed; the sensor is asked to go all the same. *)
Example teardown_after_failed_destroy :
  destroy_error (sample_env sample_blueprints three_points) 1%N
  = Some "actor not found" /\
  teardown (sample_env sample_blueprints three_points) sample_proc
  = (Ok tt,
     add_events
       [EvApplyBatch [DestroyActor 100%N; DestroyActor 102%N];
        EvDestroy 1%N; EvDestroy 2%N] sample_proc).
Proof. split; reflexivity. Qed.

(** C5, as the code has it: two teardowns in succession raise no error,
    and the second repeats the destroy attempts of the first, the lists
    being left as they are; with both lists empty a teardown sends an empty
    batch, attempts no destroy and raises no error. *)
Theorem teardown_twice_repeats (env : environment) (st : proc_state) :
  (teardown env ;;; teardown env) st
  = (Ok tt, add_events (teardown_events st ++ teardown_events st) st) /\
  destroy_attempts (teardown_events st ++ teardown_events st)
  = (spawned_vehicle_ids st ++ actor_list st)
      ++ (spawned_vehicle_ids st ++ actor_list st) /\
  actor_list (snd (teardown env st)) = actor_list st /\
  spawned_vehicle_ids (snd (teardown env st)) = spawned_vehicle_ids st /\
  (forall k tr,
      teardown env {| actor_list := []; spawned_vehicle_ids := [];
                      rng_pos := k; trace := tr |}
      = (Ok tt, {| actor_list := []; spawned_vehicle_ids := [];
                   rng_pos := k; trace := tr ++ [EvApplyBatch []] |})) /\
  destroy_attempts [EvApplyBatch []] = [].
Proof.
  split; [|split; [|split; [|split; [|split]]]].
  - unfold bind. rewrite teardown_spec, teardown_spec, add_events_app.
    reflexivity.
  - now rewrite destroy_attempts_app, destroy_attempts_teardown.
  - now rewrite teardown_spec.
  - now rewrite teardown_spec.
  - intros k tr. now rewrite teardown_spec.
  - reflexivity.
Qed.

(** With two vehicles, the hero and the sensor registered, the second
    teardown asks again for the four destructions of the first. *)
Lemma second_teardown_destroys_again :
  destroy_attempts
    (trace (snd (teardown (sample_env sample_blueprints three_points)
                          sample_proc)))
  = [100; 102; 1; 2]%N /\
  destroy_attempts
    (trace (snd ((teardown (sample_env sample_blueprints three_points) ;;;
                  teardown (sample_env sample_blueprints three_points))
                   sample_proc)))
  = [100; 102; 1; 2; 100; 102; 1; 2]%N /\
  fst ((teardown (sample_env sample_blueprints three_points) ;;;
        teardown (sample_env sample_blueprints three_points)) sample_proc)
  = Ok tt.
Proof. repeat split. Qed.

(* ================================================================= *)
(** ** Start-up *)

Section StartupFacts.

Variable env : environment.

Lemma spawn_vehicles_batch_no_blueprint filter number st :
  blueprint_filter env filter = [] ->
  spawn_vehicles_batch env filter number st
  = (Raise (RuntimeError
              ("No vehicle blueprints found for filter: " ++ filter)%string),
     st).
Proof. intros H. unfold spawn_vehicles_batch. now rewrite H. Qed.

Lemma spawn_vehicles_batch_no_spawn_point filter number st :
  blueprint_filter env filter <> [] ->
  map_spawn_points env = [] ->
  exists st',
    spawn_vehicles_batch env filter number st
    = (Raise (RuntimeError "No spawn points in the map"), st') /\
    rng_only st st'.
Proof.
  intros Hbps Hpts. unfold spawn_vehicles_batch.
  destruct (blueprint_filter env filter) as [|b bps]; [contradiction|].
  destruct (shuffle_ok env (b :: bps) st) as (bps' & st1 & Hsh & _ & Hr).
  unfold bind. rewrite Hsh, Hpts. simpl. now exists st1.
Qed.

(** The body of [main] stops with an error before the sensor listens
    and before the first tick. *)
Lemma main_body_setup_failure st :
  blueprint_filter env "vehicle.*" = [] \/ map_spawn_points env = [] ->
  exists e st' evs,
    main_body env st = (Raise e, st') /\
    is_Exception e = true /\
    trace st' = trace st ++ evs /\
    existsb session_event evs = false.
Proof.
  intros Hfail. unfold main_body.
  set (pick := match blueprint_filter env HERO_MODEL_FILTER with
               | [] => choice env (blueprint_filter env "vehicle.*")
               | b :: _ => ret b
               end).
  assert (Hpick :
            (exists msg, pick st = (Raise (IndexError msg), st)) \/
            (exists bp st1, pick st = (Ok bp, st1) /\ rng_only st st1)).
  { subst pick.
    destruct (blueprint_filter env HERO_MODEL_FILTER) as [|b ?].
    - destruct (blueprint_filter env "vehicle.*") as [|b bps] eqn:Hv.
      + left. now eexists.
      + right. destruct (choice_ok env (b :: bps) st) as (a & st1 & H & _ & Hr);
          [discriminate|]. now exists a, st1.
    - right. exists b, st. split; [reflexivity|apply rng_only_refl]. }
  destruct Hpick as [[msg Hpick]|(bp & st1 & Hpick & _ & _ & Htr1)].
  { exists (IndexError msg), st, []. unfold bind at 1. rewrite Hpick.
    rewrite app_nil_r. now repeat split. }
  unfold bind at 1. rewrite Hpick.
  destruct (map_spawn_points env) as [|p pts] eqn:Hpts.
  { eexists _, st1, []. unfold bind, raise.
    rewrite app_nil_r. now repeat split. }
  destruct Hfail as [Hbps|Hnil]; [|discriminate].
  unfold bind at 1. unfold ret at 1.
  unfold bind at 1. unfold spawn_actor at 1. unfold bind at 1.
  rewrite emit_spec.
  destruct (spawn_actor_result env (bp_id bp) p None) as [msg|hero].
  { eexists _, _, [EvSpawnActor (bp_id bp) p None].
    split; [reflexivity|]. simpl. rewrite Htr1. now repeat split. }
  unfold ret at 1. unfold bind at 1. unfold append_actor at 1.
  unfold bind at 1. rewrite emit_spec.
  unfold bind at 1.
  rewrite spawn_vehicles_batch_no_blueprint by exact Hbps.
  eexists _, _, [EvSpawnActor (bp_id bp) p None; EvSetAutopilot hero].
  split; [reflexivity|]. simpl. rewrite Htr1, <- app_assoc. now repeat split.
Qed.

End StartupFacts.

(** C9: without a vehicle blueprint, or without a spawn point, the
    provisioner raises a [RuntimeError] and submits nothing; [main] then
    ends with an error, after its teardown, and neither registers the
    sensor callback nor ticks the simulator. *)
Theorem setup_failure_is_fatal
    (env : environment) (number : Z) (st : proc_state) :
  blueprint_filter env "vehicle.*" = [] \/ map_spawn_points env = [] ->
  (exists msg st',
      spawn_vehicles_batch env "vehicle.*" number st
      = (Raise (RuntimeError msg), st') /\
      rng_only st st') /\
  (exists e st' evs,
      main env st = (Raise e, st') /\
      is_Exception e = true /\
      trace st' = trace st ++ evs /\
      existsb session_event evs = false).
Proof.
  intros Hfail. split.
  - destruct (blueprint_filter env "vehicle.*") as [|b bps] eqn:Hbps.
    + eexists _, st. rewrite spawn_vehicles_batch_no_blueprint by exact Hbps.
      split; [reflexivity|apply rng_only_refl].
    + destruct Hfail as [Hfail|Hpts]; [discriminate|].
      destruct (spawn_vehicles_batch_no_spawn_point env "vehicle.*" number st)
        as (st' & Heq & Hr); [now rewrite Hbps|exact Hpts|].
      exists "No spawn points in the map", st'. now split.
  - destruct (main_body_setup_failure env st Hfail)
      as (e & st1 & evs & Hbody & He & Htr & Hevs).
    exists e, (add_events (teardown_events st1) st1),
      (evs ++ teardown_events st1).
    unfold main. rewrite Hbody, teardown_spec.
    split; [now destruct e|]. split; [exact He|]. split.
    + simpl. now rewrite Htr, app_assoc.
    + rewrite existsb_app, Hevs. apply teardown_events_no_session.
Qed.

Lemma setup_failure_is_fatal_witness :
  (blueprint_filter (sample_env [] three_points) "vehicle.*" = [] \/
   map_spawn_points (sample_env [] three_points) = []) /\
  exists msg st',
    spawn_vehicles_batch (sample_env [] three_points) "vehicle.*" 30
                         initial_proc
    = (Raise (RuntimeError msg), st').
Proof.
  split; [now left|].
  destruct (setup_failure_is_fatal (sample_env [] three_points) 30
              initial_proc (or_introl eq_refl))
    as ((msg & st' & H & _) & _).
  now exists msg, st'.
Defined.

(* ================================================================= *)
(** * Further properties *)

(** ** The taxonomy *)

Lemma list_index_nth v l i :
  list_index v l = Some i -> nth_error l i = Some v.
Proof.
  revert i. induction l as [|x l IH]; simpl; [discriminate|].
  destruct (N.eqb_spec x v) as [->|Hne]; intros i.
  - now intros [= <-].
  - destruct (list_index v l) as [j|]; simpl; [|discriminate].
    intros [= <-]. now apply IH.
Qed.

Lemma key_list_NoDup : NoDup key_list.
Proof.
  replace key_list with (nodup string_dec key_list) by reflexivity.
  apply NoDup_nodup.
Qed.

Lemma value_list_range : value_list = map N.of_nat (seq 0 23).
Proof. reflexivity. Qed.

(** X1: the table read backwards gives back the name: every name of
    [object_id] is the class name of its tag; the tags that have a name
    in the table are those from 0 to 22. *)
Theorem class_name_of_registered_tag :
  (forall name tag, In (name, tag) object_id -> class_name tag = name) /\
  (forall tag, In tag value_list <-> (tag < 23)%N) /\
  (forall tag, (tag < 23)%N -> In (class_name tag) key_list).
Proof.
  assert (Hrange : forall tag, In tag value_list <-> (tag < 23)%N).
  { intros tag. rewrite value_list_range, in_map_iff. split.
    - intros (n & <- & Hn). apply in_seq in Hn. lia.
    - intros Hlt. exists (N.to_nat tag). split; [apply N2Nat.id|].
      apply in_seq. lia. }
  split; [|split; [exact Hrange|]].
  - intros name tag H. unfold object_id in H. simpl in H.
    repeat (destruct H as [[= <- <-]|H]; [reflexivity|]). contradiction.
  - intros tag Hlt. apply Hrange in Hlt. unfold class_name.
    destruct (list_index tag value_list) as [i|] eqn:Hi.
    + apply nth_In. apply list_index_Some in Hi.
      unfold key_list, value_list in *. now rewrite length_map in *.
    + apply list_index_None in Hi. contradiction.
Qed.

(** X2: two different tags never get the same class name, be they in
    the table or not: grouping by name is grouping by tag. *)
Theorem class_name_injective (tag tag' : N) :
  class_name tag = class_name tag' -> tag = tag'.
Proof.
  intros Heq.
  destruct (in_dec N.eq_dec tag value_list) as [Hin|Hout];
    [|symmetry; now apply unknown_name_identifies_tag].
  destruct (in_dec N.eq_dec tag' value_list) as [Hin'|Hout'];
    [|now apply unknown_name_identifies_tag].
  unfold class_name in Heq.
  destruct (list_index tag value_list) as [i|] eqn:Hi;
    [|apply list_index_None in Hi; contradiction].
  destruct (list_index tag' value_list) as [j|] eqn:Hj;
    [|apply list_index_None in Hj; contradiction].
  assert (Hlen : List.length key_list = List.length value_list)
    by (unfold key_list, value_list; now rewrite !length_map).
  pose proof (list_index_Some _ _ _ Hi) as Hi'.
  pose proof (list_index_Some _ _ _ Hj) as Hj'.
  assert (i = j).
  { apply (proj1 (NoDup_nth key_list "") key_list_NoDup); try lia.
    exact Heq. }
  subst j. apply list_index_nth in Hi, Hj. congruence.
Qed.

(* ================================================================= *)
(** ** The distance *)

Lemma pow2_opp x : Float64.pow2 (float_opp x) = Float64.pow2 x.
Proof.
  destruct x as [s|s| |s m e]; unfold Float64.pow2, float_opp; simpl;
    try reflexivity; now destruct s.
Qed.

Lemma add_nan_l x : Float64.add S754_nan x = S754_nan.
Proof. reflexivity. Qed.

Lemma add_nan_r x : Float64.add x S754_nan = S754_nan.
Proof. now destruct x as [[]|[]| |[] m e]. Qed.

Lemma is_nan_true x : Float64.is_nan x = true -> x = S754_nan.
Proof. now destruct x. Qed.

(** The value of line 132, when it has one, is NaN exactly when one of
    the coordinates is, and is not negative otherwise. *)
Lemma distance_value_cases (d : detection) :
  Float64.is_nan (distance d)
  = (let '(x, y, z) := coords d in
     Float64.is_nan x || Float64.is_nan y || Float64.is_nan z) /\
  (Float64.is_nan (distance d) = false -> Float64.nonneg (distance d)) /\
  (Float64.is_nan (distance d) = false ->
   Float64.lt (distance d) f0 = false).
Proof.
  assert (Hiff : Float64.is_nan (distance d)
                 = (let '(x, y, z) := coords d in
                    Float64.is_nan x || Float64.is_nan y || Float64.is_nan z)).
  { pose proof (distance_numeric d) as Hnum.
    unfold distance in *. destruct (coords d) as [[x y] z].
    destruct (Float64.is_nan x) eqn:Hx.
    { apply is_nan_true in Hx. subst x. reflexivity. }
    destruct (Float64.is_nan y) eqn:Hy.
    { apply is_nan_true in Hy. subst y.
      change (Float64.pow2 S754_nan) with S754_nan.
      now rewrite add_nan_r. }
    destruct (Float64.is_nan z) eqn:Hz.
    { apply is_nan_true in Hz. subst z.
      change (Float64.pow2 S754_nan) with S754_nan.
      now rewrite add_nan_r. }
    now apply Hnum. }
  assert (Hnn : Float64.is_nan (distance d) = false ->
                Float64.nonneg (distance d)).
  { rewrite Hiff. unfold distance. destruct (coords d) as [[x y] z].
    intros H. apply orb_false_iff in H as [H Hz].
    apply orb_false_iff in H as [Hx Hy].
    apply sqrt_nonneg, add_nonneg; [apply add_nonneg|];
      now apply pow2_nonneg. }
  split; [exact Hiff|]. split; [exact Hnn|].
  intros H. specialize (Hnn H).
  now destruct (distance d) as [[]|[]| |[] m e].
Qed.

(** X3: line 132 raises [OverflowError] exactly when the square of one of
    the coordinates, a finite one, is out of range, whatever the other
    coordinates are; otherwise it gives a distance that is NaN exactly when
    one of the coordinates is, and that is zero, a positive number or plus
    infinity, never a negative value, when none is. *)
Theorem distance_nan_or_nonneg (d : detection) :
  match checked_distance d with
  | Ok v =>
      detection_in_range d = true /\
      Float64.is_nan v
      = (let '(x, y, z) := coords d in
         Float64.is_nan x || Float64.is_nan y || Float64.is_nan z) /\
      (Float64.is_nan v = false ->
       Float64.nonneg v /\ Float64.lt v f0 = false)
  | Raise e =>
      e = out_of_range /\
      (let '(x, y, z) := coords d in
       Float64.pow2_overflows x || Float64.pow2_overflows y
       || Float64.pow2_overflows z) = true
  end.
Proof.
  destruct (detection_in_range d) eqn:Hd.
  - rewrite (checked_distance_in_range d Hd).
    destruct (distance_value_cases d) as (H1 & H2 & H3).
    split; [reflexivity|]. split; [exact H1|]. auto.
  - rewrite (checked_distance_out_of_range d Hd). split; [reflexivity|].
    unfold detection_in_range in Hd. destruct (coords d) as [[x y] z].
    destruct (Float64.pow2_overflows x), (Float64.pow2_overflows y),
      (Float64.pow2_overflows z); simpl in *; congruence.
Qed.

(** The coordinate [1e200] beside zeros, NaN beside [1e200], and an
    infinite coordinate, whose square is in range. *)
Example distance_out_of_range :
  checked_distance (DetFlat (S754_finite false 5883593420661338 612) f0 f0 7)
  = Raise out_of_range /\
  checked_distance
    (DetFlat S754_nan (S754_finite false 5883593420661338 612) f0 7)
  = Raise out_of_range /\
  checked_distance (DetFlat (S754_infinity false) f0 f0 7)
  = Ok (S754_infinity false).
Proof. vm_compute. repeat split. Qed.

(** X4: changing the sign of a coordinate does not change the distance. *)
Theorem distance_mirror (x y z : float) (tag : N) :
  distance (DetFlat (float_opp x) y z tag) = distance (DetFlat x y z tag) /\
  distance (DetFlat x (float_opp y) z tag) = distance (DetFlat x y z tag) /\
  distance (DetFlat x y (float_opp z) tag) = distance (DetFlat x y z tag).
Proof. unfold distance. simpl. now rewrite !pow2_opp. Qed.

(* ================================================================= *)
(** ** The summary of any frame *)











(* ================================================================= *)
(** ** The callback, frame after frame *)

Lemma nearest_of_nil_iff frame : nearest_of frame = [] <-> frame = [].
Proof.
  split; [|now intros ->].
  destruct frame as [|d frame]; [reflexivity|]. intros H. exfalso.
  destruct (nearest_of_keys (d :: frame)) as (_ & Hin & _).
  rewrite H in Hin. apply (Hin (class_of d)). now left.
Qed.

(** X8: a call that ends normally prints its line on the console exactly
    when the frame has a detection, and the line carries the summary the
    call writes to the summary file; a call that raises prints nothing. *)
Theorem semantic_lidar_data_console
    (clk : nat -> string) (frame : list detection) (st : io_state) :
  match fst (semantic_lidar_data clk frame st) with
  | Ok _ =>
      exists summary,
        detection_log_csv (snd (semantic_lidar_data clk frame st))
        = detection_log_csv st
            ++ [[CStr (clk (clock_reads st)); CStr summary]] /\
        stdout (snd (semantic_lidar_data clk frame st))
        = match frame with
          | [] => stdout st
          | _ :: _ =>
              stdout st ++
                [("Detected (name : distance m) -> " ++ summary)%string]
          end
  | Raise _ =>
      frame <> [] /\
      stdout (snd (semantic_lidar_data clk frame st)) = stdout st
  end.
Proof.
  destruct (in_range_dec frame) as [H|H].
  - rewrite (semantic_lidar_data_in_range clk frame st H). cbn [fst snd].
    exists (detections_summary_of (nearest_of frame)).
    split; [reflexivity|]. cbn [stdout].
    destruct frame as [|d frame]; [reflexivity|].
    destruct (nearest_of (d :: frame)) eqn:Hn; [|reflexivity].
    apply nearest_of_nil_iff in Hn. discriminate.
  - rewrite (semantic_lidar_data_out_of_range clk frame st H). cbn [fst snd].
    split; [|reflexivity]. intros ->. apply H. intros d [].
Qed.

Lemma to_flat_coords d : coords (to_flat d) = coords d.
Proof. unfold to_flat. now destruct d as [x y z t|[x y z] t]. Qed.

Lemma to_flat_tag d : object_tag (to_flat d) = object_tag d.
Proof. unfold to_flat. now destruct d as [x y z t|[x y z] t]. Qed.

Lemma nearest_step_to_flat nearest d :
  nearest_step nearest (to_flat d) = nearest_step nearest d.
Proof.
  unfold nearest_step, distance. now rewrite to_flat_coords, to_flat_tag.
Qed.

Lemma nearest_of_to_flat frame :
  nearest_of (map to_flat frame) = nearest_of frame.
Proof.
  unfold nearest_of. generalize (@nil (string * float)).
  induction frame as [|d frame IH]; intros acc; simpl; [reflexivity|].
  now rewrite nearest_step_to_flat, IH.
Qed.

Lemma checked_distance_to_flat d :
  checked_distance (to_flat d) = checked_distance d.
Proof. unfold checked_distance. now rewrite to_flat_coords. Qed.

Lemma nearest_loop_to_flat frame acc :
  nearest_loop (map to_flat frame) acc = nearest_loop frame acc.
Proof.
  revert acc. induction frame as [|d frame IH]; intros acc; simpl;
    [reflexivity|].
  rewrite checked_distance_to_flat, to_flat_tag.
  destruct (checked_distance d); [apply IH|reflexivity].
Qed.

(** X9: the two ways a detection may expose its coordinates, on itself
    or through [point], lead to the same end of the call, the same rows,
    the same summary and the same console line. *)
Theorem semantic_lidar_data_either_layout
    (clk : nat -> string) (frame : list detection) (st : io_state) :
  semantic_lidar_data clk (map to_flat frame) st
  = semantic_lidar_data clk frame st.
Proof.
  unfold semantic_lidar_data. rewrite nearest_loop_to_flat, map_map.
  assert (Hrows : map (fun d => raw_row (clk (clock_reads st)) (to_flat d))
                      frame
                  = map (raw_row (clk (clock_reads st))) frame).
  { apply map_ext. intros d.
    unfold raw_row. now rewrite to_flat_coords, to_flat_tag. }
  now rewrite Hrows.
Qed.

Lemma semantic_lidar_data_rows clk frame st :
  raw_lidar_csv (snd (semantic_lidar_data clk frame st))
  = raw_lidar_csv st ++ map (raw_row (clk (clock_reads st))) frame /\
  detection_log_csv (snd (semantic_lidar_data clk frame st))
  = detection_log_csv st
      ++ match nearest_loop frame [] with
         | Ok nearest =>
             [[CStr (clk (clock_reads st));
               CStr (detections_summary_of nearest)]]
         | Raise _ => []
         end /\
  clock_reads (snd (semantic_lidar_data clk frame st)) = S (clock_reads st).
Proof.
  unfold semantic_lidar_data.
  destruct (nearest_loop frame []); cbn [fst snd raw_lidar_csv
    detection_log_csv clock_reads]; repeat split.
  now rewrite app_nil_r.
Qed.

Lemma run_callbacks_spec clk frames st :
  raw_lidar_csv (run_callbacks clk frames st)
  = raw_lidar_csv st ++ raw_rows_from clk (clock_reads st) frames /\
  detection_log_csv (run_callbacks clk frames st)
  = detection_log_csv st ++ summary_rows_from clk (clock_reads st) frames /\
  clock_reads (run_callbacks clk frames st)
  = clock_reads st + List.length frames.
Proof.
  revert st. induction frames as [|frame frames IH]; intros st; simpl.
  - rewrite !app_nil_r. repeat split. lia.
  - destruct (IH (snd (semantic_lidar_data clk frame st))) as (H1 & H2 & H3).
    destruct (semantic_lidar_data_rows clk frame st) as (R1 & R2 & R3).
    unfold run_callbacks in *. simpl. rewrite H1, H2, H3, R1, R2, R3.
    rewrite <- !app_assoc. repeat split. lia.
Qed.

Lemma raw_rows_from_length clk k frames :
  List.length (raw_rows_from clk k frames) = List.length (List.concat frames).
Proof.
  revert k. induction frames as [|frame frames IH]; intros k; simpl;
    [reflexivity|].
  now rewrite !length_app, length_map, IH.
Qed.

Lemma summary_rows_from_length clk k frames :
  List.length (summary_rows_from clk k frames)
  = List.length (filter frame_in_range frames).
Proof.
  revert k. induction frames as [|frame frames IH]; intros k; simpl;
    [reflexivity|].
  rewrite length_app, IH. destruct (frame_in_range frame) eqn:H.
  - apply frame_in_range_iff in H.
    now rewrite (nearest_loop_in_range frame [] H).
  - rewrite nearest_loop_out_of_range; [reflexivity|].
    intros Hr. apply frame_in_range_iff in Hr. congruence.
Qed.

Lemma filter_in_range frames :
  Forall in_range frames -> filter frame_in_range frames = frames.
Proof.
  induction 1 as [|f fs Hf Hall IH]; simpl; [reflexivity|].
  apply frame_in_range_iff in Hf. now rewrite Hf, IH.
Qed.

Lemma summary_rows_from_nth clk k frames i frame :
  Forall in_range frames ->
  nth_error frames i = Some frame ->
  nth_error (summary_rows_from clk k frames) i
  = Some [CStr (clk (k + i)); CStr (detections_summary_of (nearest_of frame))].
Proof.
  intros Hall. revert k i.
  induction Hall as [|f frames Hf Hall IH]; intros k [|i]; simpl;
    try discriminate.
  - intros [= ->]. rewrite (nearest_loop_in_range frame [] Hf).
    now rewrite Nat.add_0_r.
  - intros Hi. rewrite (nearest_loop_in_range f [] Hf). simpl.
    rewrite (IH (S k) i Hi).
    now replace (S k + i) with (k + S i) by lia.
Qed.

(** X10: over any sequence of frames the raw file only grows at its
    end: what it held stays in front, followed by the rows of the frames in
    the order of the frames, one row per detection in all; on the file as
    created the header stays the first row. *)
Theorem raw_file_is_append_only
    (clk : nat -> string) (frames : list (list detection)) (st : io_state) :
  raw_lidar_csv (run_callbacks clk frames st)
  = raw_lidar_csv st ++ raw_rows_from clk (clock_reads st) frames /\
  List.length (raw_lidar_csv (run_callbacks clk frames st))
  = List.length (raw_lidar_csv st) + List.length (List.concat frames) /\
  hd_error (raw_lidar_csv (run_callbacks clk frames initial_io))
  = Some [CStr "timestamp"; CStr "x"; CStr "y"; CStr "z"; CStr "object_tag"].
Proof.
  destruct (run_callbacks_spec clk frames st) as (H & _ & _).
  split; [exact H|]. split.
  - now rewrite H, length_app, raw_rows_from_length.
  - destruct (run_callbacks_spec clk frames initial_io) as (-> & _ & _).
    reflexivity.
Qed.

(** X11: over any sequence of frames the clock is read once per frame
    and the summary file only grows at its end, by one row for each frame
    whose call ends normally; when every frame is in range that is one row
    per frame, in the order of the frames, and the row of the [i]-th frame
    carries the [i]-th next reading of the clock and the summary a call on
    that frame alone writes, whatever came before it. *)
Theorem summary_file_has_a_row_per_frame
    (clk : nat -> string) (frames : list (list detection)) (st : io_state) :
  clock_reads (run_callbacks clk frames st)
  = clock_reads st + List.length frames /\
  exists rows,
    detection_log_csv (run_callbacks clk frames st)
    = detection_log_csv st ++ rows /\
    List.length rows = List.length (filter frame_in_range frames) /\
    (Forall in_range frames ->
     List.length rows = List.length frames /\
     forall i frame,
       nth_error frames i = Some frame ->
       exists summary,
         nth_error rows i
         = Some [CStr (clk (clock_reads st + i)); CStr summary] /\
         forall st0,
           detection_log_csv (snd (semantic_lidar_data clk frame st0))
           = detection_log_csv st0
               ++ [[CStr (clk (clock_reads st0)); CStr summary]]).
Proof.
  destruct (run_callbacks_spec clk frames st) as (_ & H & Hc).
  split; [exact Hc|].
  exists (summary_rows_from clk (clock_reads st) frames).
  split; [exact H|]. split; [apply summary_rows_from_length|].
  intros Hall. split.
  - now rewrite summary_rows_from_length, filter_in_range.
  - intros i frame Hi.
    exists (detections_summary_of (nearest_of frame)).
    split; [now apply summary_rows_from_nth|].
    intros st0. rewrite semantic_lidar_data_in_range; [reflexivity|].
    rewrite Forall_forall in Hall. apply Hall.
    now apply nth_error_In with i.
Qed.

(** Three frames, the second out of range: three clock readings, the raw
    rows of all three, the summary rows of the first and the third. *)
Example run_callbacks_over_an_overflow :
  clock_reads (run_callbacks sample_clock
                 [sample_frame; overflow_frame; []] initial_io) = 3 /\
  List.length (raw_lidar_csv (run_callbacks sample_clock
                 [sample_frame; overflow_frame; []] initial_io)) = 5 /\
  detection_log_csv (run_callbacks sample_clock
                 [sample_frame; overflow_frame; []] initial_io)
  = [[CStr "timestamp"; CStr "detections_summary"];
     [CStr (sample_clock 0); CStr "Roads:3.10, Vehicles:9.00"];
     [CStr (sample_clock 2); CStr ""]].
Proof. vm_compute. repeat split. Qed.

(** X24: a frame whose coordinates are all of magnitude below [2^128],
    as single-precision coordinates are, is in range: no power of line 132
    overflows, the call ends normally and writes its summary row. *)
Theorem single_precision_frame_completes
    (clk : nat -> string) (frame : list detection) (st : io_state) :
  (forall d, In d frame -> single_precision_range d = true) ->
  in_range frame /\
  fst (semantic_lidar_data clk frame st) = Ok tt /\
  exists summary,
    detection_log_csv (snd (semantic_lidar_data clk frame st))
    = detection_log_csv st ++ [[CStr (clk (clock_reads st)); CStr summary]].
Proof.
  intros H.
  assert (Hr : in_range frame).
  { intros d Hd. apply single_precision_in_range. now apply H. }
  split; [exact Hr|].
  rewrite (semantic_lidar_data_in_range clk frame st Hr).
  split; [reflexivity|].
  now exists (detections_summary_of (nearest_of frame)).
Qed.

Lemma single_precision_frame_completes_witness :
  forallb single_precision_range sample_frame = true /\
  fst (semantic_lidar_data sample_clock sample_frame initial_io) = Ok tt.
Proof.
  split; [reflexivity|].
  exact (proj1 (proj2 (single_precision_frame_completes
                         sample_clock sample_frame initial_io
                         (proj1 (forallb_forall single_precision_range
                                                sample_frame)
                                eq_refl)))).
Defined.

(* ================================================================= *)
(** ** NaN distances *)






(* ================================================================= *)
(** ** What a run leaves untouched *)

Lemma lists_kept_refl st : lists_kept st st.
Proof. repeat split. exists []. now rewrite app_nil_r. Qed.

Lemma lists_kept_trans st1 st2 st3 :
  lists_kept st1 st2 -> lists_kept st2 st3 -> lists_kept st1 st3.
Proof.
  intros (H1 & H2 & evs & H3) (H4 & H5 & evs' & H6).
  repeat split; try congruence.
  exists (evs ++ evs'). now rewrite H6, H3, app_assoc.
Qed.

Lemma rng_only_lists_kept st st' : rng_only st st' -> lists_kept st st'.
Proof.
  intros (H1 & H2 & H3). repeat split; auto.
  exists []. now rewrite app_nil_r.
Qed.

Lemma add_events_lists_kept evs st : lists_kept st (add_events evs st).
Proof. repeat split. now exists evs. Qed.

Lemma grown_refl st : grown st st.
Proof. repeat split; exists []; now rewrite app_nil_r. Qed.

Lemma grown_trans st1 st2 st3 : grown st1 st2 -> grown st2 st3 -> grown st1 st3.
Proof.
  intros ((a & Ha) & (i & Hi) & (e & He)) ((a' & Ha') & (i' & Hi') & (e' & He')).
  repeat split.
  - exists (a ++ a'). now rewrite Ha', Ha, app_assoc.
  - exists (i ++ i'). now rewrite Hi', Hi, app_assoc.
  - exists (e ++ e'). now rewrite He', He, app_assoc.
Qed.

Lemma lists_kept_grown st st' : lists_kept st st' -> grown st st'.
Proof.
  intros (H1 & H2 & H3). repeat split; auto.
  - exists []. now rewrite app_nil_r.
  - exists []. now rewrite app_nil_r.
Qed.

Section Keeps.

Variable R : proc_state -> proc_state -> Prop.
Hypothesis R_refl : forall st, R st st.
Hypothesis R_trans : forall st1 st2 st3, R st1 st2 -> R st2 st3 -> R st1 st3.

Lemma keeps_ret {A} (a : A) : keeps R (ret a).
Proof. intros st. apply R_refl. Qed.

Lemma keeps_raise {A} (e : exn) : keeps R (@raise A e).
Proof. intros st. apply R_refl. Qed.

Lemma keeps_bind {A B} (m : M A) (k : A -> M B) :
  keeps R m -> (forall a, keeps R (k a)) -> keeps R (bind m k).
Proof.
  intros Hm Hk st. unfold bind. specialize (Hm st).
  destruct (m st) as [[a|e] st1]; simpl in *; [|exact Hm].
  apply R_trans with st1; [exact Hm|apply Hk].
Qed.

Lemma keeps_try_pass (m : M unit) : keeps R m -> keeps R (try_pass m).
Proof.
  intros Hm st. unfold try_pass. specialize (Hm st).
  destruct (m st) as [[[]|e] st1]; simpl in *; [exact Hm|].
  now destruct (is_Exception e).
Qed.

End Keeps.

Lemma no_interrupt_ret {A} (a : A) : no_interrupt (ret a).
Proof. intros st e st'. discriminate. Qed.

Lemma no_interrupt_bind {A B} (m : M A) (k : A -> M B) :
  no_interrupt m -> (forall a, no_interrupt (k a)) -> no_interrupt (bind m k).
Proof.
  intros Hm Hk st e st'. unfold bind.
  destruct (m st) as [[a|e0] st1] eqn:Hst.
  - apply Hk.
  - intros [= <- <-]. now apply (Hm st e0 st1).
Qed.

Ltac kept_ret := apply (keeps_ret lists_kept lists_kept_refl).
Ltac kept_raise := apply (keeps_raise lists_kept lists_kept_refl).
Ltac kept_bind := apply (keeps_bind lists_kept lists_kept_trans).

Section ProvisionerKeeps.

Variable env : environment.

Lemma emit_kept ev : keeps lists_kept (emit ev).
Proof. intros st. rewrite emit_spec. apply add_events_lists_kept. Qed.

Lemma randbelow_kept n : keeps lists_kept (randbelow env n).
Proof. intros st. apply rng_only_lists_kept. now repeat split. Qed.

Lemma choice_kept {A} (seq : list A) : keeps lists_kept (choice env seq).
Proof.
  destruct seq as [|x seq]; [kept_raise|].
  kept_bind; [apply randbelow_kept|].
  intros i. destruct (nth_error (x :: seq) i);
    [kept_ret|kept_raise].
Qed.

Lemma shuffle_kept {A} (x : list A) : keeps lists_kept (shuffle env x).
Proof.
  intros st. destruct (shuffle_ok env x st) as (x' & st' & -> & _ & Hr).
  now apply rng_only_lists_kept.
Qed.

Lemma choose_attribute_kept recommended :
  keeps lists_kept (choose_attribute env recommended).
Proof.
  destruct recommended as [values|]; simpl.
  - kept_bind; [apply choice_kept|].
    intros v. kept_ret.
  - kept_ret.
Qed.

Lemma build_batch_kept blueprints n_spawn spawn_points :
  forall n batch,
    keeps lists_kept (build_batch env blueprints n_spawn n spawn_points batch).
Proof.
  induction spawn_points as [|t rest IH]; intros n batch; simpl.
  - kept_ret.
  - destruct (n_spawn <=? Z.of_nat n)%Z; [kept_ret|].
    kept_bind; [apply choice_kept|]. intros bp.
    kept_bind; [apply choose_attribute_kept|].
    intros color.
    kept_bind; [apply choose_attribute_kept|].
    intros driver. apply IH.
Qed.

Lemma submit_batch_kept batch : keeps lists_kept (submit_batch env batch).
Proof. intros st. rewrite submit_batch_spec. apply add_events_lists_kept. Qed.

Lemma spawn_vehicles_batch_kept filter number :
  keeps lists_kept (spawn_vehicles_batch env filter number).
Proof.
  unfold spawn_vehicles_batch.
  destruct (blueprint_filter env filter) as [|b bps];
    [kept_raise|].
  kept_bind; [apply shuffle_kept|]. intros bps'.
  destruct (Nat.eqb _ 0); [kept_raise|].
  kept_bind; [apply shuffle_kept|]. intros pts'.
  kept_bind; [apply build_batch_kept|].
  intros batch. apply submit_batch_kept.
Qed.

Lemma choice_no_interrupt {A} (seq : list A) : no_interrupt (choice env seq).
Proof.
  destruct seq as [|x seq].
  - intros st e st' [= <- <-]. reflexivity.
  - apply no_interrupt_bind; [intros st e st'; discriminate|].
    intros i. destruct (nth_error (x :: seq) i).
    + apply no_interrupt_ret.
    + intros st e st' [= <- <-]. reflexivity.
Qed.

Lemma shuffle_no_interrupt {A} (x : list A) : no_interrupt (shuffle env x).
Proof.
  intros st e st' H.
  destruct (shuffle_ok env x st) as (x' & st1 & Heq & _). congruence.
Qed.

Lemma choose_attribute_no_interrupt recommended :
  no_interrupt (choose_attribute env recommended).
Proof.
  destruct recommended as [values|]; simpl; [|apply no_interrupt_ret].
  apply no_interrupt_bind; [apply choice_no_interrupt|].
  intros v. apply no_interrupt_ret.
Qed.

Lemma build_batch_no_interrupt blueprints n_spawn spawn_points :
  forall n batch,
    no_interrupt (build_batch env blueprints n_spawn n spawn_points batch).
Proof.
  induction spawn_points as [|t rest IH]; intros n batch; simpl.
  - apply no_interrupt_ret.
  - destruct (n_spawn <=? Z.of_nat n)%Z; [apply no_interrupt_ret|].
    apply no_interrupt_bind; [apply choice_no_interrupt|]. intros bp.
    apply no_interrupt_bind; [apply choose_attribute_no_interrupt|].
    intros color.
    apply no_interrupt_bind; [apply choose_attribute_no_interrupt|].
    intros driver. apply IH.
Qed.

Lemma spawn_vehicles_batch_no_interrupt filter number :
  no_interrupt (spawn_vehicles_batch env filter number).
Proof.
  unfold spawn_vehicles_batch.
  destruct (blueprint_filter env filter) as [|b bps].
  - intros st e st' [= <- <-]. reflexivity.
  - apply no_interrupt_bind; [apply shuffle_no_interrupt|]. intros bps'.
    destruct (Nat.eqb _ 0).
    + intros st e st' [= <- <-]. reflexivity.
    + apply no_interrupt_bind; [apply shuffle_no_interrupt|]. intros pts'.
      apply no_interrupt_bind; [apply build_batch_no_interrupt|].
      intros batch st e st'. rewrite submit_batch_spec. discriminate.
Qed.

End ProvisionerKeeps.

(** X13: however it ends, with a list of ids or with an error, the
    provisioner leaves [actor_list] and [spawned_vehicle_ids] as they were
    and takes nothing back from the trace: registering what it created is
    left to its caller. *)
Theorem spawn_vehicles_batch_leaves_the_lists
    (env : environment) (filter : string) (number : Z) (st : proc_state) :
  lists_kept st (snd (spawn_vehicles_batch env filter number st)).
Proof. apply spawn_vehicles_batch_kept. Qed.

(* ================================================================= *)
(** ** What the provisioner asks for *)

Section RequestFacts.

Variable env : environment.

Lemma choose_attribute_drawn recommended st :
  recommended <> Some [] ->
  exists v st',
    choose_attribute env recommended st = (Ok v, st') /\
    drawn_from recommended v /\ rng_only st st'.
Proof.
  intros Hne. destruct recommended as [values|]; simpl.
  - destruct (choice_ok env values st) as (a & st' & Heq & Hin & Hr).
    { intros ->. now apply Hne. }
    exists (Some a), st'. unfold bind. now rewrite Heq.
  - exists None, st. split; [reflexivity|]. split; [exact I|].
    apply rng_only_refl.
Qed.

Lemma build_batch_requests blueprints n_spawn :
  blueprints <> [] -> Forall blueprint_ok blueprints ->
  forall spawn_points n batch st,
  exists reqs st',
    build_batch env blueprints n_spawn n spawn_points batch st
    = (Ok (batch ++ map SpawnActor reqs), st') /\
    map req_transform reqs
    = firstn (Z.to_nat (n_spawn - Z.of_nat n)) spawn_points /\
    Forall (well_built env blueprints) reqs /\
    rng_only st st'.
Proof.
  intros Hne Hok.
  induction spawn_points as [|transform rest IH]; intros n batch st.
  - exists [], st. simpl. rewrite app_nil_r, firstn_nil.
    repeat split; auto.
  - simpl. destruct (Z.leb_spec n_spawn (Z.of_nat n)) as [Hle|Hgt].
    + exists [], st. simpl. rewrite app_nil_r.
      replace (Z.to_nat (n_spawn - Z.of_nat n)) with 0 by lia.
      repeat split; auto.
    + destruct (choice_ok env blueprints st Hne)
        as (bp & st1 & Hbp & Hin & Hr1).
      assert (Hbpok : blueprint_ok bp)
        by (rewrite Forall_forall in Hok; now apply Hok).
      destruct Hbpok as [Hcol Hdrv].
      destruct (choose_attribute_drawn (bp_color bp) st1 Hcol)
        as (color & st2 & Hcolor & Hdc & Hr2).
      destruct (choose_attribute_drawn (bp_driver_id bp) st2 Hdrv)
        as (driver & st3 & Hdriver & Hdd & Hr3).
      unfold bind at 1. rewrite Hbp.
      unfold bind at 1. rewrite Hcolor.
      unfold bind at 1. rewrite Hdriver.
      match goal with
      | |- context [build_batch _ _ _ _ _ (batch ++ [SpawnActor ?r])] =>
          set (req := r)
      end.
      destruct (IH (S n) (batch ++ [SpawnActor req]) st3)
        as (reqs & st' & Heq & Htr & Hall & Hr).
      exists (req :: reqs), st'. split; [|split; [|split]].
      * rewrite Heq, <- app_assoc. reflexivity.
      * replace (Z.to_nat (n_spawn - Z.of_nat n))
          with (S (Z.to_nat (n_spawn - Z.of_nat (S n)))) by lia.
        simpl. now rewrite Htr.
      * constructor; [|exact Hall].
        subst req. unfold well_built. simpl. repeat split.
        now exists bp.
      * eauto using rng_only_trans.
Qed.

Lemma spawn_vehicles_batch_requests filter number st :
  blueprint_filter env filter <> [] ->
  Forall blueprint_ok (blueprint_filter env filter) ->
  map_spawn_points env <> [] ->
  exists reqs shuffled st1,
    spawn_vehicles_batch env filter number st
    = (Ok (succeeded (batch_sync_result env (map SpawnActor reqs))),
       add_events
         (EvApplyBatchSync (map SpawnActor reqs)
            :: failed (batch_sync_result env (map SpawnActor reqs))) st1) /\
    rng_only st st1 /\
    Permutation (map_spawn_points env) shuffled /\
    map req_transform reqs
    = firstn (Z.to_nat (Z.min number
                          (Z.of_nat (List.length (map_spawn_points env)))))
             shuffled /\
    Forall (well_built env (blueprint_filter env filter)) reqs.
Proof.
  intros Hbps Hok Hpts. unfold spawn_vehicles_batch.
  destruct (blueprint_filter env filter) as [|b bps] eqn:Hfilter;
    [contradiction|].
  destruct (shuffle_ok env (b :: bps) st) as (bps' & st1 & Hsh1 & Hp1 & Hr1).
  unfold bind at 1. rewrite Hsh1.
  destruct (map_spawn_points env) as [|pt pts] eqn:Hmap; [contradiction|].
  cbn [List.length Nat.eqb].
  destruct (shuffle_ok env (pt :: pts) st1) as (pts' & st2 & Hsh2 & Hp2 & Hr2).
  unfold bind at 1. rewrite Hsh2.
  destruct (build_batch_requests bps'
              (Z.min number (Z.of_nat (S (List.length pts))))) with
    (spawn_points := pts') (n := 0) (batch := @nil command) (st := st2)
    as (reqs & st3 & Hb & Htr & Hall & Hr3).
  { intros ->. apply Permutation_sym, Permutation_nil in Hp1. discriminate. }
  { rewrite Forall_forall in *. intros bp Hbp. apply Hok.
    now apply (Permutation_in _ (Permutation_sym Hp1)). }
  unfold bind. rewrite Hb. simpl app. rewrite submit_batch_spec.
  exists reqs, pts', st3. split; [reflexivity|]. split; [|split; [|split]].
  - eauto using rng_only_trans.
  - exact Hp2.
  - rewrite Htr. f_equal. simpl Z.of_nat. lia.
  - rewrite Forall_forall in *. intros r Hr.
    destruct (Hall r Hr) as (H1 & H2 & bp & Hbp & H3).
    repeat split; auto. exists bp. split; [|exact H3].
    now apply (Permutation_in _ (Permutation_sym Hp1)).
Qed.

End RequestFacts.

Lemma sample_blueprints_ok : Forall blueprint_ok sample_blueprints.
Proof. repeat constructor; discriminate. Qed.

(** X14: every request the provisioner submits is for a blueprint of
    the filtered catalog, with the role name [autopilot] and the autopilot
    follow-up on the traffic manager's port; its colour and its driver are
    values the blueprint recommends, and it has none where the blueprint
    has no such attribute. *)
Theorem spawn_requests_are_well_built
    (env : environment) (filter : string) (number : Z) (st : proc_state) :
  blueprint_filter env filter <> [] ->
  Forall blueprint_ok (blueprint_filter env filter) ->
  map_spawn_points env <> [] ->
  exists reqs warnings st',
    snd (spawn_vehicles_batch env filter number st) = st' /\
    trace st' = trace st ++ EvApplyBatchSync (map SpawnActor reqs) :: warnings /\
    Forall (fun r =>
              req_role_name r = "autopilot" /\
              req_autopilot_port r = tm_port env /\
              exists bp,
                In bp (blueprint_filter env filter) /\
                req_blueprint r = bp_id bp /\
                drawn_from (bp_color bp) (req_color r) /\
                drawn_from (bp_driver_id bp) (req_driver_id r)) reqs.
Proof.
  intros Hbps Hok Hpts.
  destruct (spawn_vehicles_batch_requests env filter number st Hbps Hok Hpts)
    as (reqs & shuffled & st1 & Heq & (_ & _ & Htr) & _ & _ & Hall).
  exists reqs. eexists _, _. rewrite Heq. split; [reflexivity|].
  split; [simpl; now rewrite Htr|exact Hall].
Qed.

Lemma spawn_requests_are_well_built_witness :
  blueprint_filter quiet_env "vehicle.*" <> [] /\
  Forall blueprint_ok (blueprint_filter quiet_env "vehicle.*") /\
  map_spawn_points quiet_env <> [] /\
  exists reqs warnings,
    trace (snd (spawn_vehicles_batch quiet_env "vehicle.*" 2 initial_proc))
    = EvApplyBatchSync (map SpawnActor reqs) :: warnings /\
    Forall (fun r => req_role_name r = "autopilot") reqs.
Proof.
  assert (H1 : blueprint_filter quiet_env "vehicle.*" <> []) by discriminate.
  assert (H3 : map_spawn_points quiet_env <> []) by discriminate.
  split; [exact H1|]. split; [exact sample_blueprints_ok|]. split; [exact H3|].
  destruct (spawn_requests_are_well_built quiet_env "vehicle.*" 2 initial_proc
              H1 sample_blueprints_ok H3)
    as (reqs & warnings & st' & <- & Htr & Hall).
  exists reqs, warnings. split; [exact Htr|].
  rewrite Forall_forall in *. intros r Hr. exact (proj1 (Hall r Hr)).
Defined.

(** X15: when at least as many vehicles are asked for as the map has
    spawn points, every spawn point gets exactly one request. *)
Theorem every_spawn_point_is_used
    (env : environment) (filter : string) (number : Z) (st : proc_state) :
  blueprint_filter env filter <> [] ->
  Forall blueprint_ok (blueprint_filter env filter) ->
  map_spawn_points env <> [] ->
  (Z.of_nat (List.length (map_spawn_points env)) <= number)%Z ->
  exists reqs warnings,
    trace (snd (spawn_vehicles_batch env filter number st))
    = trace st ++ EvApplyBatchSync (map SpawnActor reqs) :: warnings /\
    Permutation (map req_transform reqs) (map_spawn_points env).
Proof.
  intros Hbps Hok Hpts Hle.
  destruct (spawn_vehicles_batch_requests env filter number st Hbps Hok Hpts)
    as (reqs & shuffled & st1 & Heq & (_ & _ & Htr) & Hperm & Htrs & _).
  exists reqs. eexists. rewrite Heq. split; [simpl; now rewrite Htr|].
  rewrite Htrs, firstn_all2; [now apply Permutation_sym|].
  rewrite <- (Permutation_length Hperm). lia.
Qed.

Lemma every_spawn_point_is_used_witness :
  blueprint_filter quiet_env "vehicle.*" <> [] /\
  Forall blueprint_ok (blueprint_filter quiet_env "vehicle.*") /\
  map_spawn_points quiet_env <> [] /\
  (Z.of_nat (List.length (map_spawn_points quiet_env)) <= 30)%Z /\
  exists reqs warnings,
    trace (snd (spawn_vehicles_batch quiet_env "vehicle.*" 30 initial_proc))
    = EvApplyBatchSync (map SpawnActor reqs) :: warnings /\
    Permutation (map req_transform reqs) three_points.
Proof.
  assert (H1 : blueprint_filter quiet_env "vehicle.*" <> []) by discriminate.
  assert (H3 : map_spawn_points quiet_env <> []) by discriminate.
  assert (H4 : (Z.of_nat (List.length (map_spawn_points quiet_env)) <= 30)%Z)
    by (simpl; lia).
  split; [exact H1|]. split; [exact sample_blueprints_ok|]. split; [exact H3|].
  split; [exact H4|].
  exact (every_spawn_point_is_used quiet_env "vehicle.*" 30 initial_proc
           H1 sample_blueprints_ok H3 H4).
Defined.

(** X16: a colour attribute that recommends no value cannot be drawn
    from: when every blueprint of the catalog has such an attribute and at
    least one vehicle is asked for, the provisioner raises [IndexError] and
    submits nothing. *)
Theorem attribute_without_value_is_an_error
    (env : environment) (filter : string) (number : Z) (st : proc_state) :
  blueprint_filter env filter <> [] ->
  Forall (fun bp => bp_color bp = Some []) (blueprint_filter env filter) ->
  map_spawn_points env <> [] ->
  (1 <= number)%Z ->
  exists st',
    spawn_vehicles_batch env filter number st
    = (Raise (IndexError "Cannot choose from an empty sequence"), st') /\
    rng_only st st'.
Proof.
  intros Hbps Hcol Hpts Hnum. unfold spawn_vehicles_batch.
  destruct (blueprint_filter env filter) as [|b bps] eqn:Hfilter;
    [contradiction|].
  destruct (shuffle_ok env (b :: bps) st) as (bps' & st1 & Hsh1 & Hp1 & Hr1).
  unfold bind at 1. rewrite Hsh1.
  destruct (map_spawn_points env) as [|pt pts] eqn:Hmap; [contradiction|].
  cbn [List.length Nat.eqb].
  destruct (shuffle_ok env (pt :: pts) st1) as (pts' & st2 & Hsh2 & Hp2 & Hr2).
  unfold bind at 1. rewrite Hsh2.
  destruct pts' as [|pt' pts'];
    [apply Permutation_sym, Permutation_nil in Hp2; discriminate|].
  assert (Hne : bps' <> []).
  { intros ->. apply Permutation_sym, Permutation_nil in Hp1. discriminate. }
  destruct (choice_ok env bps' st2 Hne) as (bp & st3 & Hbp & Hin & Hr3).
  assert (Hbc : bp_color bp = Some []).
  { rewrite Forall_forall in Hcol. apply Hcol.
    now apply (Permutation_in _ (Permutation_sym Hp1)). }
  unfold bind at 1. simpl build_batch.
  match goal with
  | |- context [Z.leb ?a ?b] => destruct (Z.leb_spec a b) as [Hle|_]; [lia|]
  end.
  unfold bind at 1. rewrite Hbp.
  unfold bind at 1. rewrite Hbc. simpl.
  exists st3. split; [reflexivity|].
  eauto using rng_only_trans.
Qed.

Lemma attribute_without_value_is_an_error_witness :
  blueprint_filter
    (sample_env [Blueprint "vehicle.audi.tt" (Some []) None] three_points)
    "vehicle.*" <> [] /\
  exists st',
    spawn_vehicles_batch
      (sample_env [Blueprint "vehicle.audi.tt" (Some []) None] three_points)
      "vehicle.*" 30 initial_proc
    = (Raise (IndexError "Cannot choose from an empty sequence"), st').
Proof.
  assert (H1 : blueprint_filter
                 (sample_env [Blueprint "vehicle.audi.tt" (Some []) None]
                             three_points) "vehicle.*" <> []) by discriminate.
  split; [exact H1|].
  destruct (attribute_without_value_is_an_error
              (sample_env [Blueprint "vehicle.audi.tt" (Some []) None]
                          three_points) "vehicle.*" 30 initial_proc H1)
    as (st' & H & _).
  - repeat constructor.
  - discriminate.
  - lia.
  - now exists st'.
Defined.

(* ================================================================= *)
(** ** [main], from start to end *)

Section MainFacts.

Variable env : environment.

Lemma main_loop_spec hero_vehicle turns st :
  main_loop env hero_vehicle turns st
  = (Raise (loop_exit env),
     add_events (loop_events (synchronous_mode env) hero_vehicle turns) st).
Proof.
  revert st. induction turns as [|k IH]; intros st; simpl.
  - unfold raise. now rewrite add_events_nil.
  - unfold bind. rewrite !emit_spec, IH, !add_events_app. reflexivity.
Qed.

Lemma spawn_actor_kept bp t attach_to :
  keeps lists_kept (spawn_actor env bp t attach_to).
Proof.
  unfold spawn_actor. kept_bind; [apply emit_kept|]. intros _.
  destruct (spawn_actor_result env bp t attach_to); [kept_raise|kept_ret].
Qed.

Lemma append_actor_grown a : keeps grown (append_actor a).
Proof.
  intros st. unfold append_actor. simpl. repeat split.
  - now exists [a].
  - exists []. now rewrite app_nil_r.
  - exists []. now rewrite app_nil_r.
Qed.

Lemma extend_spawned_grown ids : keeps grown (extend_spawned ids).
Proof.
  intros st. unfold extend_spawned. simpl. repeat split.
  - exists []. now rewrite app_nil_r.
  - now exists ids.
  - exists []. now rewrite app_nil_r.
Qed.

Lemma kept_grown {A} (m : M A) : keeps lists_kept m -> keeps grown m.
Proof. intros H st. apply lists_kept_grown, H. Qed.

Lemma main_body_grown : keeps grown (main_body env).
Proof.
  unfold main_body.
  apply (keeps_bind grown grown_trans).
  { destruct (blueprint_filter env HERO_MODEL_FILTER).
    - apply kept_grown, choice_kept.
    - apply (keeps_ret grown grown_refl). }
  intros hero_bp. apply (keeps_bind grown grown_trans).
  { destruct (map_spawn_points env);
      [apply (keeps_raise grown grown_refl)|apply (keeps_ret grown grown_refl)]. }
  intros p. apply (keeps_bind grown grown_trans);
    [apply kept_grown, spawn_actor_kept|].
  intros hero. apply (keeps_bind grown grown_trans);
    [apply append_actor_grown|]. intros _.
  apply (keeps_bind grown grown_trans); [apply kept_grown, emit_kept|].
  intros _. apply (keeps_bind grown grown_trans);
    [apply kept_grown, spawn_vehicles_batch_kept|].
  intros ids. apply (keeps_bind grown grown_trans);
    [apply extend_spawned_grown|]. intros _.
  apply (keeps_bind grown grown_trans);
    [apply kept_grown, spawn_actor_kept|].
  intros lidar. apply (keeps_bind grown grown_trans);
    [apply append_actor_grown|]. intros _.
  apply (keeps_bind grown grown_trans); [apply kept_grown, emit_kept|].
  intros _. apply (keeps_bind grown grown_trans);
    [apply kept_grown, emit_kept|].
  intros _ st. rewrite main_loop_spec. apply lists_kept_grown.
  apply add_events_lists_kept.
Qed.

(** [main] is its body, its result with the interrupt turned into a
    normal end, followed by the teardown of what the body left. *)
Lemma main_spec st :
  main env st
  = (match fst (main_body env st) with
     | Raise KeyboardInterrupt => Ok tt
     | r => r
     end,
     add_events (teardown_events (snd (main_body env st)))
                (snd (main_body env st))).
Proof.
  unfold main. destruct (main_body env st) as [r st1].
  rewrite teardown_spec. now destruct r as [[]|[]].
Qed.

End MainFacts.

Section FinallyFacts.

Variable batch_raises : list command -> option exn.
Variable destroy_raises : actor_id -> option exn.

Lemma try_pass_destroy_with a st :
  try_pass (destroy_with destroy_raises a) st
  = (match destroy_raises a with
     | Some e => if is_Exception e then Ok tt else Raise e
     | None => Ok tt
     end, add_events [EvDestroy a] st).
Proof.
  unfold try_pass, destroy_with, bind. rewrite emit_spec.
  destruct (destroy_raises a) as [e|]; [|reflexivity].
  unfold raise. now destruct (is_Exception e).
Qed.

Lemma try_pass_apply_batch_with batch st :
  try_pass (apply_batch_with batch_raises batch) st
  = (match batch_raises batch with
     | Some e => if is_Exception e then Ok tt else Raise e
     | None => Ok tt
     end, add_events [EvApplyBatch batch] st).
Proof.
  unfold try_pass, apply_batch_with, bind. rewrite emit_spec.
  destruct (batch_raises batch) as [e|]; [|reflexivity].
  unfold raise. now destruct (is_Exception e).
Qed.

Lemma destroy_each_with_ok actors st :
  (forall a e, In a actors -> destroy_raises a = Some e ->
               is_Exception e = true) ->
  destroy_each_with destroy_raises actors st
  = (Ok tt, add_events (map EvDestroy actors) st).
Proof.
  revert st. induction actors as [|a actors IH]; intros st H; simpl.
  - unfold ret. now rewrite add_events_nil.
  - unfold bind. rewrite try_pass_destroy_with.
    assert (Ha : match destroy_raises a with
                 | Some e => if is_Exception e then Ok tt else Raise e
                 | None => @Ok unit tt
                 end = Ok tt).
    { destruct (destroy_raises a) as [e|] eqn:He; [|reflexivity].
      now rewrite (H a e (or_introl eq_refl) He). }
    rewrite Ha, IH, add_events_app; [reflexivity|].
    intros b e Hb. apply H. now right.
Qed.

(** The loop stops at the first actor whose destruction is interrupted. *)
Lemma destroy_each_with_interrupted before a after st :
  (forall b e, In b before -> destroy_raises b = Some e ->
               is_Exception e = true) ->
  destroy_raises a = Some KeyboardInterrupt ->
  destroy_each_with destroy_raises (before ++ a :: after) st
  = (Raise KeyboardInterrupt, add_events (map EvDestroy (before ++ [a])) st).
Proof.
  revert st. induction before as [|b before IH]; intros st H Ha; simpl.
  - unfold bind. now rewrite try_pass_destroy_with, Ha.
  - unfold bind. rewrite try_pass_destroy_with.
    assert (Hb : match destroy_raises b with
                 | Some e => if is_Exception e then Ok tt else Raise e
                 | None => @Ok unit tt
                 end = Ok tt).
    { destruct (destroy_raises b) as [e|] eqn:He; [|reflexivity].
      now rewrite (H b e (or_introl eq_refl) He). }
    rewrite Hb, IH, add_events_app; [reflexivity| |exact Ha].
    intros c e Hc. apply H. now right.
Qed.

Lemma teardown_with_ok st :
  only_exceptions batch_raises -> only_exceptions destroy_raises ->
  teardown_with batch_raises destroy_raises st
  = (Ok tt, add_events (teardown_events st) st).
Proof.
  intros Hb Hd. unfold teardown_with, bind.
  rewrite try_pass_apply_batch_with.
  assert (H : match batch_raises (map DestroyActor (spawned_vehicle_ids st)) with
              | Some e => if is_Exception e then Ok tt else Raise e
              | None => @Ok unit tt
              end = Ok tt).
  { destruct (batch_raises _) as [e|] eqn:He; [|reflexivity].
    now rewrite (Hb _ e He). }
  rewrite H. simpl actor_list.
  rewrite destroy_each_with_ok, add_events_app; [reflexivity|].
  intros a e _. apply Hd.
Qed.

(** Only an interrupt leaves the [finally] block. *)
Lemma teardown_with_raises st e st' :
  teardown_with batch_raises destroy_raises st = (Raise e, st') ->
  e = KeyboardInterrupt.
Proof.
  assert (Hd : forall actors s e' s',
             destroy_each_with destroy_raises actors s = (Raise e', s') ->
             e' = KeyboardInterrupt).
  { induction actors as [|a actors IH]; intros s e' s'; simpl.
    - discriminate.
    - unfold bind. rewrite try_pass_destroy_with.
      destruct (destroy_raises a) as [e0|]; [|apply IH].
      destruct e0; simpl; try apply IH. now intros [= <- _]. }
  unfold teardown_with, bind. rewrite try_pass_apply_batch_with.
  destruct (batch_raises _) as [e0|]; [|apply Hd].
  destruct e0; simpl; try apply Hd. now intros [= <- _].
Qed.

Lemma main_with_ok body st :
  only_exceptions batch_raises -> only_exceptions destroy_raises ->
  main_with batch_raises destroy_raises body st
  = (match fst (body st) with
     | Raise KeyboardInterrupt => Ok tt
     | r => r
     end,
     add_events (teardown_events (snd (body st))) (snd (body st))).
Proof.
  intros Hb Hd. unfold main_with. destruct (body st) as [r st1].
  rewrite (teardown_with_ok st1 Hb Hd). now destruct r as [[]|[]].
Qed.

End FinallyFacts.

Lemma batch_raises_of_only_exceptions env :
  only_exceptions (batch_raises_of env).
Proof.
  intros batch e. unfold batch_raises_of.
  destruct (apply_batch_error env batch); simpl; [|discriminate].
  now intros [= <-].
Qed.

Lemma destroy_raises_of_only_exceptions env :
  only_exceptions (destroy_raises_of env).
Proof.
  intros a e. unfold destroy_raises_of.
  destruct (destroy_error env a); simpl; [|discriminate].
  now intros [= <-].
Qed.

Lemma no_error_only_exceptions {A} : only_exceptions (fun _ : A => None).
Proof. intros a e. discriminate. Qed.

(** [main] is [main_with] at the start-up and loop of the program and the
    errors of the simulator. *)
Lemma main_is_main_with env st :
  main env st
  = main_with (batch_raises_of env) (destroy_raises_of env) (main_body env) st.
Proof.
  rewrite main_spec, main_with_ok;
    auto using batch_raises_of_only_exceptions,
               destroy_raises_of_only_exceptions.
Qed.

(** X17: whatever happens in the [try] block of [main], a normal end, an
    error or an interrupt at any point of it, when no interrupt arrives
    during the [finally] block the teardown comes last and covers all that
    is registered: every id left in [spawned_vehicle_ids] or [actor_list]
    has its destroy request in the trace; the interrupt of the block is
    turned into a normal end, any other error is raised again. *)
Theorem main_always_tears_down
    (batch_raises : list command -> option exn)
    (destroy_raises : actor_id -> option exn)
    (body : M unit) (st : proc_state) :
  only_exceptions batch_raises ->
  only_exceptions destroy_raises ->
  fst (main_with batch_raises destroy_raises body st)
  = match fst (body st) with
    | Raise KeyboardInterrupt => Ok tt
    | r => r
    end /\
  actor_list (snd (main_with batch_raises destroy_raises body st))
  = actor_list (snd (body st)) /\
  spawned_vehicle_ids (snd (main_with batch_raises destroy_raises body st))
  = spawned_vehicle_ids (snd (body st)) /\
  trace (snd (main_with batch_raises destroy_raises body st))
  = trace (snd (body st))
      ++ teardown_events (snd (main_with batch_raises destroy_raises body st)) /\
  (forall a,
      In a (spawned_vehicle_ids
              (snd (main_with batch_raises destroy_raises body st))
            ++ actor_list
                 (snd (main_with batch_raises destroy_raises body st))) ->
      In a (destroy_attempts
              (trace (snd (main_with batch_raises destroy_raises body st))))).
Proof.
  intros Hb Hd. rewrite (main_with_ok _ _ body st Hb Hd). cbn [fst snd].
  set (st1 := snd (body st)).
  split; [reflexivity|]. split; [reflexivity|]. split; [reflexivity|].
  split; [reflexivity|].
  intros a Ha. unfold add_events in *.
  cbn [trace actor_list spawned_vehicle_ids] in *.
  rewrite destroy_attempts_app, destroy_attempts_teardown.
  apply in_or_app. now right.
Qed.

Lemma main_always_tears_down_witness :
  only_exceptions (fun _ : list command => @None exn) /\
  only_exceptions
    (destroy_raises_of (sample_env sample_blueprints three_points)) /\
  fst (interrupted_startup initial_proc) = Raise KeyboardInterrupt /\
  fst (main_with (fun _ => None)
         (destroy_raises_of (sample_env sample_blueprints three_points))
         interrupted_startup initial_proc)
  = Ok tt /\
  trace (snd (main_with (fun _ => None)
                (destroy_raises_of (sample_env sample_blueprints three_points))
                interrupted_startup initial_proc))
  = [EvSpawnActor "vehicle.tesla.model3" (spawn_point_at 1) None;
     EvApplyBatch []; EvDestroy 1%N].
Proof.
  split; [exact no_error_only_exceptions|].
  split; [apply destroy_raises_of_only_exceptions|].
  split; [reflexivity|].
  destruct (main_always_tears_down
              (fun _ => None)
              (destroy_raises_of (sample_env sample_blueprints three_points))
              interrupted_startup initial_proc
              no_error_only_exceptions
              (destroy_raises_of_only_exceptions
                 (sample_env sample_blueprints three_points)))
    as (Hr & _ & _ & Htr & _).
  split; [exact Hr|]. rewrite Htr. reflexivity.
Defined.

(** X23: an interrupt that arrives during the [finally] block, while an
    actor of [actor_list] is being destroyed, is not caught by
    [except Exception]: the loop stops there, the interrupt leaves [main]
    in place of whatever ended the [try] block, and the actors that come
    later in the list get no destroy request. *)
Theorem interrupted_teardown_is_cut_short
    (batch_raises : list command -> option exn)
    (destroy_raises : actor_id -> option exn)
    (body : M unit) (st : proc_state)
    (before : list actor_id) (a : actor_id) (after : list actor_id) :
  only_exceptions batch_raises ->
  (forall b e, In b before -> destroy_raises b = Some e ->
               is_Exception e = true) ->
  destroy_raises a = Some KeyboardInterrupt ->
  actor_list (snd (body st)) = before ++ a :: after ->
  main_with batch_raises destroy_raises body st
  = (Raise KeyboardInterrupt,
     add_events
       (EvApplyBatch (map DestroyActor (spawned_vehicle_ids (snd (body st))))
          :: map EvDestroy (before ++ [a]))
       (snd (body st))) /\
  destroy_attempts
    (EvApplyBatch (map DestroyActor (spawned_vehicle_ids (snd (body st))))
       :: map EvDestroy (before ++ [a]))
  = spawned_vehicle_ids (snd (body st)) ++ before ++ [a].
Proof.
  intros Hb Hbefore Ha Hlist. split.
  - unfold main_with. destruct (body st) as [r st1]. cbn [snd] in *.
    unfold teardown_with, bind. rewrite try_pass_apply_batch_with.
    assert (H : match batch_raises
                        (map DestroyActor (spawned_vehicle_ids st1)) with
                | Some e => if is_Exception e then Ok tt else Raise e
                | None => @Ok unit tt
                end = Ok tt).
    { destruct (batch_raises _) as [e|] eqn:He; [|reflexivity].
      now rewrite (Hb _ e He). }
    rewrite H. simpl actor_list. rewrite Hlist.
    rewrite (destroy_each_with_interrupted destroy_raises before a after _
               Hbefore Ha).
    now rewrite add_events_app.
  - simpl. f_equal.
    + induction (spawned_vehicle_ids (snd (body st))) as [|x l IH]; simpl;
        congruence.
    + induction (before ++ [a]) as [|x l IH]; simpl; congruence.
Qed.

Lemma interrupted_teardown_is_cut_short_witness :
  interrupted_destroy 1%N = Some KeyboardInterrupt /\
  actor_list (snd (main_loop quiet_env 1%N 3 sample_proc)) = [1; 2]%N /\
  fst (main_with (fun _ => None) interrupted_destroy
         (main_loop quiet_env 1%N 3) sample_proc)
  = Raise KeyboardInterrupt /\
  destroy_attempts
    (trace (snd (main_with (fun _ => None) interrupted_destroy
                   (main_loop quiet_env 1%N 3) sample_proc)))
  = [100; 102; 1]%N.
Proof.
  split; [reflexivity|]. split; [reflexivity|].
  destruct (interrupted_teardown_is_cut_short
              (fun _ => None) interrupted_destroy
              (main_loop quiet_env 1%N 3) sample_proc [] 1%N [2%N]
              no_error_only_exceptions
              (fun b e (H : In b []) => match H with end)
              eq_refl eq_refl) as (Hm & _).
  rewrite Hm. split; reflexivity.
Defined.

(** X18: [main] never takes anything out of [actor_list],
    [spawned_vehicle_ids] or the trace: each of them ends as it began,
    with what the run added behind. *)
Theorem main_only_adds (env : environment) (st : proc_state) :
  grown st (snd (main env st)).
Proof.
  rewrite main_spec. cbn [snd].
  apply grown_trans with (snd (main_body env st)).
  - apply main_body_grown.
  - apply lists_kept_grown, add_events_lists_kept.
Qed.

Section SessionFacts.

Variable env : environment.

(** The start-up when every call succeeds: up to the loop and through
    it. *)
Lemma main_body_success st hero lidar p pts :
  blueprint_filter env "vehicle.*" <> [] ->
  Forall blueprint_ok (blueprint_filter env "vehicle.*") ->
  map_spawn_points env = p :: pts ->
  (forall bp t, spawn_actor_result env bp t None = inr hero) ->
  spawn_actor_result env "sensor.lidar.ray_cast_semantic" lidar_transform
                     (Some hero) = inr lidar ->
  exists hero_bp reqs st1,
    main_body env st = (Raise (loop_exit env), st1) /\
    actor_list st1 = actor_list st ++ [hero; lidar] /\
    spawned_vehicle_ids st1
    = spawned_vehicle_ids st
        ++ succeeded (batch_sync_result env (map SpawnActor reqs)) /\
    trace st1
    = trace st
        ++ startup_events hero_bp p hero lidar (map SpawnActor reqs)
             (failed (batch_sync_result env (map SpawnActor reqs)))
        ++ loop_events (synchronous_mode env) hero (loop_turns env) /\
    List.length reqs = Z.to_nat (Z.min NUM_VEHICLES (Z.of_nat (S (List.length pts)))).
Proof.
  intros Hbps Hok Hpts Hhero Hlidar. unfold main_body.
  set (pick := match blueprint_filter env HERO_MODEL_FILTER with
               | [] => choice env (blueprint_filter env "vehicle.*")
               | b :: _ => ret b
               end).
  assert (Hpick : exists bp st0, pick st = (Ok bp, st0) /\ rng_only st st0).
  { subst pick. destruct (blueprint_filter env HERO_MODEL_FILTER) as [|b ?].
    - destruct (choice_ok env _ st Hbps) as (a & st0 & H & _ & Hr).
      now exists a, st0.
    - exists b, st. split; [reflexivity|apply rng_only_refl]. }
  destruct Hpick as (bp & st0 & Hpick & Ha0 & Hs0 & Ht0).
  unfold bind at 1. rewrite Hpick. rewrite Hpts.
  unfold bind at 1. unfold ret at 1.
  unfold bind at 1. unfold spawn_actor at 1. unfold bind at 1.
  rewrite emit_spec, Hhero. unfold ret at 1.
  unfold bind at 1. unfold append_actor at 1.
  unfold bind at 1. rewrite emit_spec.
  unfold bind at 1.
  match goal with
  | |- context [spawn_vehicles_batch env "vehicle.*" NUM_VEHICLES ?s] =>
      set (st_a := s)
  end.
  assert (Hpts' : map_spawn_points env <> []) by (rewrite Hpts; discriminate).
  destruct (spawn_vehicles_batch_ok env "vehicle.*" NUM_VEHICLES st_a
              Hbps Hok Hpts')
    as (reqs & shuffled & st_b & Hfleet & (Hab & Hsb & Htb) & Hperm & Htr & _).
  rewrite Hfleet.
  unfold bind at 1. unfold extend_spawned at 1.
  unfold bind at 1. unfold spawn_actor at 1. unfold bind at 1.
  rewrite emit_spec, Hlidar. unfold ret at 1.
  unfold bind at 1. unfold append_actor at 1.
  unfold bind at 1. rewrite emit_spec.
  unfold bind at 1. rewrite emit_spec.
  rewrite main_loop_spec.
  exists (bp_id bp), reqs. eexists. split; [reflexivity|].
  unfold add_events, startup_events. cbn [actor_list spawned_vehicle_ids trace].
  rewrite Hab, Hsb, Htb. subst st_a. unfold add_events.
  cbn [actor_list spawned_vehicle_ids trace]. rewrite Ha0, Hs0, Ht0.
  split; [now rewrite <- app_assoc|]. split; [reflexivity|]. split.
  - repeat (rewrite <- app_assoc; cbn [app]). reflexivity.
  - rewrite <- (length_map req_transform), Htr, length_firstn.
    rewrite <- (Permutation_length Hperm), Hpts. simpl List.length. lia.
Qed.

Lemma loop_events_ticks synchronous hero turns :
  List.length (filter is_tick (loop_events synchronous hero turns)) = turns /\
  Forall (fun ev => is_tick ev = true ->
                    ev = if synchronous then EvTick else EvWaitForTick)
         (loop_events synchronous hero turns).
Proof.
  induction turns as [|k [IH1 IH2]]; simpl; [now split|].
  split.
  - destruct synchronous; simpl; now rewrite IH1.
  - constructor; [now destruct synchronous|].
    constructor; [discriminate|exact IH2].
Qed.

(** The body of [main] never returns: it ends with an error of the
    start-up, or with what ends the loop, the sensor then listening. *)
Lemma main_body_result st :
  exists e st1,
    main_body env st = (Raise e, st1) /\
    (is_Exception e = true \/
     e = loop_exit env /\ exists lidar, In (EvListen lidar) (trace st1)).
Proof.
  unfold main_body.
  set (pick := match blueprint_filter env HERO_MODEL_FILTER with
               | [] => choice env (blueprint_filter env "vehicle.*")
               | b :: _ => ret b
               end).
  assert (Hpick : no_interrupt pick).
  { subst pick. destruct (blueprint_filter env HERO_MODEL_FILTER).
    - apply choice_no_interrupt.
    - apply no_interrupt_ret. }
  unfold bind at 1. destruct (pick st) as [[bp|e] st0] eqn:Hp.
  2:{ exists e, st0. split; [reflexivity|]. left. now apply (Hpick st e st0). }
  unfold bind at 1. destruct (map_spawn_points env) as [|p pts].
  { eexists _, _. split; [reflexivity|]. now left. }
  unfold ret at 1.
  unfold bind at 1. unfold spawn_actor at 1. unfold bind at 1.
  rewrite emit_spec.
  destruct (spawn_actor_result env (bp_id bp) p None) as [msg|hero].
  { eexists _, _. split; [reflexivity|]. now left. }
  unfold ret at 1. unfold bind at 1. unfold append_actor at 1.
  unfold bind at 1. rewrite emit_spec.
  unfold bind at 1.
  match goal with
  | |- context [spawn_vehicles_batch env "vehicle.*" NUM_VEHICLES ?s] =>
      set (st_a := s)
  end.
  destruct (spawn_vehicles_batch env "vehicle.*" NUM_VEHICLES st_a)
    as [[ids|e] st_b] eqn:Hfleet.
  2:{ exists e, st_b. split; [reflexivity|]. left.
      exact (spawn_vehicles_batch_no_interrupt env "vehicle.*" NUM_VEHICLES
               st_a e st_b Hfleet). }
  unfold bind at 1. unfold extend_spawned at 1.
  unfold bind at 1. unfold spawn_actor at 1. unfold bind at 1.
  rewrite emit_spec.
  destruct (spawn_actor_result env _ lidar_transform (Some hero))
    as [msg|lidar].
  { eexists _, _. split; [reflexivity|]. now left. }
  unfold ret at 1. unfold bind at 1. unfold append_actor at 1.
  unfold bind at 1. rewrite emit_spec.
  unfold bind at 1. rewrite emit_spec.
  rewrite main_loop_spec.
  eexists _, _. split; [reflexivity|]. right. split; [reflexivity|].
  exists lidar. unfold add_events. cbn [trace].
  apply in_or_app. left. apply in_or_app. right. now left.
Qed.

End SessionFacts.

Lemma failed_no_tick responses : filter is_tick (failed responses) = [].
Proof.
  unfold failed.
  induction (filter (fun res => negb (String.eqb (res_error res) "")) responses)
    as [|res l IH]; simpl; auto.
Qed.

Lemma failed_no_destroy responses : destroy_attempts (failed responses) = [].
Proof.
  unfold failed.
  induction (filter (fun res => negb (String.eqb (res_error res) "")) responses)
    as [|res l IH]; simpl; auto.
Qed.

Lemma loop_events_no_destroy synchronous hero turns :
  destroy_attempts (loop_events synchronous hero turns) = [].
Proof. induction turns as [|k IH]; simpl; [|destruct synchronous]; auto. Qed.

Lemma teardown_events_no_tick st : filter is_tick (teardown_events st) = [].
Proof.
  unfold teardown_events. simpl.
  induction (actor_list st) as [|a l IH]; simpl; auto.
Qed.

(** X19: when the simulator creates the hero and the sensor and the
    catalog and the map are not empty, [main] registers the hero, the
    sensor and the vehicles the batch created, listens to the sensor, turns
    in its loop until the loop is broken, ticking once per turn ([tick] in
    synchronous mode, [wait_for_tick] otherwise), and then asks for the
    destruction of every actor it registered; an interrupt of the loop
    ends [main] normally, any other error of the loop is raised again
    after the teardown. *)
Theorem session_runs_and_cleans_up
    (env : environment) (st : proc_state)
    (hero lidar : actor_id) (p : transform) (pts : list transform) :
  blueprint_filter env "vehicle.*" <> [] ->
  Forall blueprint_ok (blueprint_filter env "vehicle.*") ->
  map_spawn_points env = p :: pts ->
  (forall bp t, spawn_actor_result env bp t None = inr hero) ->
  spawn_actor_result env "sensor.lidar.ray_cast_semantic" lidar_transform
                     (Some hero) = inr lidar ->
  exists hero_bp reqs evs st',
    main env st
    = (match loop_exit env with
       | KeyboardInterrupt => Ok tt
       | e => Raise e
       end, st') /\
    actor_list st' = actor_list st ++ [hero; lidar] /\
    spawned_vehicle_ids st'
    = spawned_vehicle_ids st
        ++ succeeded (batch_sync_result env (map SpawnActor reqs)) /\
    trace st' = trace st ++ evs /\
    evs = startup_events hero_bp p hero lidar (map SpawnActor reqs)
            (failed (batch_sync_result env (map SpawnActor reqs)))
          ++ loop_events (synchronous_mode env) hero (loop_turns env)
          ++ teardown_events st' /\
    List.length (filter is_tick evs) = loop_turns env /\
    destroy_attempts evs = spawned_vehicle_ids st' ++ actor_list st'.
Proof.
  intros Hbps Hok Hpts Hhero Hlidar.
  destruct (main_body_success env st hero lidar p pts Hbps Hok Hpts Hhero
              Hlidar)
    as (hero_bp & reqs & st1 & Hbody & Hact & Hids & Htr & _).
  exists hero_bp, reqs. eexists.
  exists (add_events (teardown_events st1) st1).
  rewrite main_spec, Hbody. cbn [fst snd].
  split; [now destruct (loop_exit env)|].
  split; [exact Hact|]. split; [exact Hids|].
  assert (Hte : teardown_events (add_events (teardown_events st1) st1)
                = teardown_events st1) by reflexivity.
  rewrite Hte. split; [|split; [reflexivity|split]].
  - unfold add_events. cbn [trace]. rewrite Htr.
    now rewrite <- !app_assoc.
  - rewrite !filter_app, teardown_events_no_tick, app_nil_r.
    unfold startup_events. rewrite !filter_app, failed_no_tick. simpl.
    apply loop_events_ticks.
  - rewrite !destroy_attempts_app, loop_events_no_destroy.
    unfold startup_events. rewrite !destroy_attempts_app, failed_no_destroy.
    simpl. apply destroy_attempts_teardown.
Qed.

Lemma session_runs_and_cleans_up_witness :
  blueprint_filter quiet_env "vehicle.*" <> [] /\
  Forall blueprint_ok (blueprint_filter quiet_env "vehicle.*") /\
  exists st',
    main quiet_env initial_proc = (Ok tt, st') /\
    actor_list st' = [1; 2]%N /\
    List.length (filter is_tick (trace st')) = 3.
Proof.
  assert (H1 : blueprint_filter quiet_env "vehicle.*" <> []) by discriminate.
  split; [exact H1|]. split; [exact sample_blueprints_ok|].
  destruct (session_runs_and_cleans_up quiet_env initial_proc 1%N 2%N
              (spawn_point_at 1) [spawn_point_at 2; spawn_point_at 3]
              H1 sample_blueprints_ok eq_refl (fun _ _ => eq_refl) eq_refl)
    as (hero_bp & reqs & evs & st' & Hmain & Hact & _ & Htr & _ & Hticks & _).
  exists st'. split; [exact Hmain|]. split; [exact Hact|].
  rewrite Htr. exact Hticks.
Defined.

(** X20: [main] ends normally exactly when its [try] block ended
    normally or was interrupted, at whatever point of the block, start-up
    included, and the [finally] block was not interrupted; any other error
    of the block is raised again, and an interrupt of the [finally] block
    leaves [main] as such.  The start-up and loop of the program never end
    normally (the loop has no exit of its own), so that a normal end of
    [main] means an interrupt. *)
Theorem main_ends_normally_only_when_interrupted
    (batch_raises : list command -> option exn)
    (destroy_raises : actor_id -> option exn)
    (body : M unit) (st : proc_state) :
  (fst (main_with batch_raises destroy_raises body st) = Ok tt <->
   (fst (body st) = Ok tt \/ fst (body st) = Raise KeyboardInterrupt) /\
   fst (teardown_with batch_raises destroy_raises (snd (body st))) = Ok tt) /\
  (forall e,
      fst (main_with batch_raises destroy_raises body st) = Raise e ->
      (e <> KeyboardInterrupt /\ fst (body st) = Raise e /\
       fst (teardown_with batch_raises destroy_raises (snd (body st))) = Ok tt)
      \/
      (e = KeyboardInterrupt /\
       fst (teardown_with batch_raises destroy_raises (snd (body st)))
       = Raise KeyboardInterrupt)) /\
  (forall env st0,
      fst (main_body env st0) <> Ok tt /\
      main env st0
      = main_with (batch_raises_of env) (destroy_raises_of env)
                  (main_body env) st0) /\
  fst (main_with (fun _ => None) (fun _ => None)
                 (raise KeyboardInterrupt) initial_proc) = Ok tt.
Proof.
  split; [|split; [|split]].
  - unfold main_with. destruct (body st) as [r st1]. cbn [fst snd].
    destruct (teardown_with batch_raises destroy_raises st1) as [[[]|e] st2]
      eqn:Ht; cbn [fst].
    + destruct r as [[]|[]]; split; try tauto; try discriminate;
        intros [[H|H] _]; discriminate.
    + split; [discriminate|]. intros [_ H]. discriminate.
  - intros e. unfold main_with. destruct (body st) as [r st1]. cbn [fst snd].
    destruct (teardown_with batch_raises destroy_raises st1) as [[[]|e'] st2]
      eqn:Ht; cbn [fst].
    + destruct r as [[]|e0]; [discriminate|].
      destruct e0; try discriminate; intros [= <-]; left;
        (split; [discriminate|split; reflexivity]).
    + intros [= <-]. right.
      pose proof (teardown_with_raises _ _ _ _ _ Ht) as ->. now split.
  - intros env st0. split; [|apply main_is_main_with].
    destruct (main_body_result env st0) as (e & st1 & -> & _). discriminate.
  - reflexivity.
Qed.

(** X21: when the simulator refuses the hero, [main] ends with that
    error: the fleet is not asked for, nothing is registered, and the
    teardown of what was registered before is all that follows. *)
Theorem hero_failure_is_fatal
    (env : environment) (st : proc_state)
    (msg : string) (p : transform) (pts : list transform) :
  map_spawn_points env = p :: pts ->
  blueprint_filter env HERO_MODEL_FILTER <> [] \/
  blueprint_filter env "vehicle.*" <> [] ->
  (forall bp t, spawn_actor_result env bp t None = inl msg) ->
  exists hero_bp st',
    main env st = (Raise (RuntimeError msg), st') /\
    actor_list st' = actor_list st /\
    spawned_vehicle_ids st' = spawned_vehicle_ids st /\
    trace st'
    = trace st ++ EvSpawnActor hero_bp p None :: teardown_events st.
Proof.
  intros Hpts Hcat Hhero.
  assert (Hbody : exists bp st0,
             main_body env st
             = (Raise (RuntimeError msg),
                add_events [EvSpawnActor (bp_id bp) p None] st0) /\
             rng_only st st0).
  { unfold main_body.
    set (pick := match blueprint_filter env HERO_MODEL_FILTER with
                 | [] => choice env (blueprint_filter env "vehicle.*")
                 | b :: _ => ret b
                 end).
    assert (Hpick : exists bp st0, pick st = (Ok bp, st0) /\ rng_only st st0).
    { subst pick.
      destruct (blueprint_filter env HERO_MODEL_FILTER) as [|b ?].
      - destruct Hcat as [Hc|Hc]; [contradiction|].
        destruct (choice_ok env _ st Hc) as (a & st0 & H & _ & Hr).
        now exists a, st0.
      - exists b, st. split; [reflexivity|apply rng_only_refl]. }
    destruct Hpick as (bp & st0 & Hpick & Hr).
    exists bp, st0. split; [|exact Hr].
    unfold bind at 1. rewrite Hpick, Hpts.
    unfold bind at 1. unfold ret at 1.
    unfold bind at 1. unfold spawn_actor at 1. unfold bind at 1.
    now rewrite emit_spec, Hhero. }
  destruct Hbody as (bp & st0 & Hbody & Ha & Hs & Ht).
  exists (bp_id bp). eexists. rewrite main_spec, Hbody. cbn [fst snd].
  split; [reflexivity|].
  unfold add_events, teardown_events.
  cbn [actor_list spawned_vehicle_ids trace].
  rewrite Ha, Hs, Ht. repeat split.
  now rewrite <- app_assoc.
Qed.

Lemma hero_failure_is_fatal_witness :
  exists hero_bp st',
    main {| blueprint_filter := blueprint_filter quiet_env;
            map_spawn_points := three_points;
            tm_port := 8000%N;
            rand_raw := rand_raw quiet_env;
            spawn_actor_result := fun _ _ _ => inl "collision";
            batch_sync_result := batch_sync_result quiet_env;
            apply_batch_error := fun _ => None;
            destroy_error := fun _ => None;
            synchronous_mode := true;
            loop_turns := 3;
            loop_exit := KeyboardInterrupt |} sample_proc
    = (Raise (RuntimeError "collision"), st') /\
    trace st'
    = EvSpawnActor hero_bp (spawn_point_at 1) None
        :: teardown_events sample_proc.
Proof.
  destruct (hero_failure_is_fatal
              {| blueprint_filter := blueprint_filter quiet_env;
                 map_spawn_points := three_points;
                 tm_port := 8000%N;
                 rand_raw := rand_raw quiet_env;
                 spawn_actor_result := fun _ _ _ => inl "collision";
                 batch_sync_result := batch_sync_result quiet_env;
                 apply_batch_error := fun _ => None;
                 destroy_error := fun _ => None;
                 synchronous_mode := true;
                 loop_turns := 3;
                 loop_exit := KeyboardInterrupt |}
              sample_proc "collision" (spawn_point_at 1)
              [spawn_point_at 2; spawn_point_at 3] eq_refl)
    as (hero_bp & st' & Hmain & _ & _ & Htr).
  - right. discriminate.
  - reflexivity.
  - now exists hero_bp, st'.
Defined.

Lemma class_name_injective_witness : 7%N = 7%N.
Proof. exact (class_name_injective 7 7 eq_refl). Defined.

(* ================================================================= *)
(** ** The order of the detections *)




